(** * Slice-Leaderboard: the counter store, the role check and the commands of
    [bot.py], embedded in Rocq.

    The [orders] table carries the constraint [uq_guild_user]: at most one row
    per (guild_id, user_id).  It is modelled as a finite map from that pair to
    the two remaining columns (display_name, count).  The surrogate key [id]
    is never read by the program and is left out.  Python integers are
    unbounded, so ids and counts are [Z]; the [count] column is an INTEGER,
    whose width is the database engine's (32 bits on PostgreSQL, 64 on
    SQLite) and is a parameter here.  Ids are Discord snowflakes, which fit
    BigInteger, and the names Discord hands over have at most 32 characters,
    within String(128). *)

From stdpp Require Import gmap strings list sorting.

Open Scope Z_scope.

(** ** The model ([class Order]) *)

Record Order := mkOrder {
  guild_id : Z;
  user_id : Z;
  display_name : string;
  count : Z
}.

#[global] Instance Order_eq_dec : EqDecision Order.
Proof. solve_decision. Defined.

Abbreviation Table := (gmap (Z * Z) (string * Z)).

Definition row_of (k : Z * Z) (v : string * Z) : Order :=
  mkOrder k.1 k.2 v.1 v.2.

Definition with_count (r : Order) (c : Z) : Order :=
  mkOrder (guild_id r) (user_id r) (display_name r) c.

Definition with_display_name (r : Order) (nm : string) : Order :=
  mkOrder (guild_id r) (user_id r) nm (count r).

(** [select(Order).where(guild_id == g, user_id == u)] followed by
    [scalar_one_or_none()]. *)
Definition select_one (g u : Z) (s : Table) : option Order :=
  row_of (g, u) <$> s !! (g, u).

(** [select(Order).where(guild_id == g)] followed by [scalars().all()]. *)
Definition select_guild (g : Z) (s : Table) : list Order :=
  (λ kv, row_of kv.1 kv.2) <$> filter (λ kv : Z * Z * (string * Z), kv.1.1 = g) (map_to_list s).

(** What [s.commit()] writes for a pending or dirty row object. *)
Definition flush (r : Order) (s : Table) : Table :=
  <[(guild_id r, user_id r) := (display_name r, count r)]> s.

(** Python truthiness of a [str], and [x or 0] on an [int]. *)
Definition truthy (nm : string) : bool :=
  match nm with
  | EmptyString => false
  | String _ _ => true
  end.

Definition or0 (c : Z) : Z := if decide (c = 0) then 0 else c.

(** The two statements shared by [_add_count] and [_set_count]:
    [if display_name and row.display_name != display_name: ...]. *)
Definition refresh_name (row : Order) (nm : string) : Order :=
  if truthy nm && negb (String.eqb (display_name row) nm)
  then with_display_name row nm
  else row.

(** ** The INTEGER column

    [bits] is the number of value bits of the signed INTEGER that holds
    [count]: 31 on PostgreSQL, 63 on SQLite. *)

Definition int_max (bits : nat) : Z := 2 ^ Z.of_nat bits - 1.

Definition fits (bits : nat) (c : Z) : bool :=
  bool_decide (- 2 ^ Z.of_nat bits ≤ c ≤ int_max bits).

Section Engine.

Variable bits : nat.

(** [s.commit()] with a pending or dirty row: the flush raises when the
    count does not fit the column, and the session is rolled back ([None]).
    Stored counts always fit, so a count the call did not change, which is
    not written again, passes the same test. *)
Definition commit (row : Order) (s : Table) : option Table :=
  if fits bits (count row) then Some (flush row s) else None.

(** [row.count] read after the commit: the session expires the object on
    commit and loads it again; a row that is gone raises. *)
Definition reload_count (row : Order) (s : Table) : option Z :=
  snd <$> s !! (guild_id row, user_id row).

(** ** DB helpers: each one maps the table to a result and the table after
    the session is closed; [None] is an exception out of the helper, which
    leaves the table as it was. *)

(** [if row is None: row = Order(..., count=0); s.add(row)]. *)
Definition find_or_create (g u : Z) (nm : string) (found : option Order) : Order :=
  match found with
  | None => mkOrder g u nm 0
  | Some r => r
  end.

Definition _add_count (g u delta : Z) (nm : string) (s : Table) : option (Z * Table) :=
  let row := find_or_create g u nm (select_one g u s) in
  let row := with_count row (Z.max 0 (or0 (count row) + delta)) in
  let row := refresh_name row nm in
  s' ← commit row s;
  c ← reload_count row s';
  Some (c, s').

(** [int(value)] is the identity on an [int]. *)
Definition _set_count (g u value : Z) (nm : string) (s : Table) : option (Z * Table) :=
  let row := find_or_create g u nm (select_one g u s) in
  let row := with_count row (Z.max 0 value) in
  let row := refresh_name row nm in
  s' ← commit row s;
  c ← reload_count row s';
  Some (c, s').

Definition _remove_user (g u : Z) (s : Table) : bool * Table :=
  match select_one g u s with
  | None => (false, s)
  | Some row => (true, delete (guild_id row, user_id row) s)
  end.

(** The loop [for r in rows: r.count = 0; n += 1], then the commit; 0 fits
    the column whatever its width. *)
Definition reset_loop (rows : list Order) (s : Table) : Z * Table :=
  foldl (λ (acc : Z * Table) r, (acc.1 + 1, flush (with_count r 0) acc.2)) (0, s) rows.

Definition _reset_all (g : Z) (s : Table) : Z * Table :=
  reset_loop (select_guild g s) s.

(** [order_by(desc(Order.count), Order.user_id)]. *)
Definition order_by : relation Order :=
  λ a b, count b < count a ∨ (count a = count b ∧ user_id a ≤ user_id b).

#[global] Instance order_by_dec a b : Decision (order_by a b).
Proof. unfold order_by. apply _. Defined.

(** The limit is a natural number here: the program only ever passes 10, and
    what a negative LIMIT does is decided by the database engine. *)
Definition _top_n (g : Z) (n : nat) (s : Table) : list Order * Table :=
  (take n (merge_sort order_by (select_guild g s)), s).

(** ** One call of [_add_count] as the database sees it

    [asyncio.to_thread] runs each call in a worker thread with a session of
    its own.  The session holds no lock between the SELECT and the commit, so
    a call is three steps for the other threads: the SELECT, the write that
    commit flushes, and the SELECT that loads [row.count] again for the
    [return].  The write of a pending row is an INSERT, refused by
    [uq_guild_user] when the pair is there by then; the write of a loaded row
    is an UPDATE of the columns the call changed. *)

Inductive Phase :=
| Started
| Selected (found : option Order)
| Committed (row : Order)
| Returned (ret : Z)
| Raised.

Definition update_row (old new : Order) (s : Table) : Table :=
  alter (λ v : string * Z,
           (if decide (display_name new = display_name old) then v.1 else display_name new,
            if decide (count new = count old) then v.2 else count new))
        (guild_id old, user_id old) s.

Definition add_step (g u delta : Z) (nm : string) (ph : Phase) (s : Table) : Phase * Table :=
  match ph with
  | Started => (Selected (select_one g u s), s)
  | Selected found =>
      let row := find_or_create g u nm found in
      let row := with_count row (Z.max 0 (or0 (count row) + delta)) in
      let row := refresh_name row nm in
      match found, s !! (g, u) with
      | None, None =>
          match commit row s with
          | Some s' => (Committed row, s')
          | None => (Raised, s)
          end
      | None, Some _ => (Raised, s)
      | Some old, Some _ =>
          if fits bits (count row) then (Committed row, update_row old row s)
          else (Raised, s)
      | Some _, None => (Raised, s)
      end
  | Committed row =>
      match reload_count row s with
      | Some c => (Returned c, s)
      | None => (Raised, s)
      end
  | Returned _ | Raised => (ph, s)
  end.

(** A pool of threads that all run [_add_count g u delta nm], and a schedule
    naming the thread that takes the next step. *)
Definition sched_step (g u delta : Z) (nm : string) (i : nat)
    (cfg : list Phase * Table) : list Phase * Table :=
  match cfg.1 !! i with
  | None => cfg
  | Some ph =>
      let r := add_step g u delta nm ph cfg.2 in
      (<[i := r.1]> cfg.1, r.2)
  end.

Definition run_schedule (g u delta : Z) (nm : string) (sched : list nat)
    (cfg : list Phase * Table) : list Phase * Table :=
  foldl (λ c i, sched_step g u delta nm i c) cfg sched.

(** Every call runs its three steps back to back, one call after the
    other. *)
Definition serial (N : nat) : list nat :=
  i ← seq 0 N; [i; i; i].

Definition stored_count (g u : Z) (s : Table) : option Z :=
  snd <$> s !! (g, u).

(** ** Discord side: what the commands read from the context *)

Record Role := mkRole { role_name : string }.

Record Member := mkMember {
  member_id : Z;
  member_name : string;
  member_display_name : string;
  member_roles : list Role
}.

Record Guild := mkGuild {
  gid : Z;
  guild_members : list Member
}.

(** [ctx.author] is a [discord.Member] in a server and a plain user
    elsewhere; [author_is_member] is the [isinstance] test. *)
Record Context := mkContext {
  ctx_guild : option Guild;
  ctx_author : Member;
  author_is_member : bool
}.

Definition get_member (guild : Guild) (uid : Z) : option Member :=
  find (λ m, bool_decide (member_id m = uid)) (guild_members guild).

Inductive Medal := Gold | Silver | Bronze | Place (rank : nat).

(** [EMOJI_MEDALS.get(idx, ...)]: a medal for the first three, the rank
    [idx + 1] after them. *)
Definition medal_for (idx : nat) : Medal :=
  match idx with
  | 0%nat => Gold
  | 1%nat => Silver
  | 2%nat => Bronze
  | _ => Place (idx + 1)
  end.

(** The replies, by what they carry; the wording is the presentation.
    [CommandRaised] is no reply at all: the helper raised, and the exception
    goes to the error handler of discord.py. *)
Inductive Reply :=
| CommandRaised
| ServerOnly
| NeedRole (role_names : list string)
| OrderComplete (new_count : Z)
| NoDataYet
| LeaderboardEmbed (lines : list (Medal * string * Z))
| UsageRemove
| Removed (who : string)
| NotOnLeaderboard
| UsageSet
| AmountNegative
| SetTo (who : string) (new_val : Z)
| ResetDone (n : Z).

Definition name_for (member : option Member) (fallback : string) : string :=
  match member with
  | Some m => member_display_name m
  | None => if truthy fallback then fallback else "Unknown"
  end.

(** The loop over [enumerate(rows)] that builds the lines of the embed. *)
Definition leaderboard_lines (guild : Guild) (rows : list Order) : list (Medal * string * Z) :=
  imap (λ idx row,
          (medal_for idx,
           name_for (get_member guild (user_id row)) (display_name row),
           count row)) rows.

Definition leaderboard_cmd (ctx : Context) (s : Table) : Reply * Table :=
  match ctx_guild ctx with
  | None => (ServerOnly, s)
  | Some guild =>
      let r := _top_n (gid guild) 10 s in
      match r.1 with
      | [] => (NoDataYet, r.2)
      | rows => (LeaderboardEmbed (leaderboard_lines guild rows), r.2)
      end
  end.

Definition add_cmd (ctx : Context) (s : Table) : Reply * Table :=
  match ctx_guild ctx with
  | None => (ServerOnly, s)
  | Some guild =>
      let member := ctx_author ctx in
      let display := name_for (Some member) (member_name member) in
      match _add_count (gid guild) (member_id member) 1 display s with
      | Some r => (OrderComplete r.1, r.2)
      | None => (CommandRaised, s)
      end
  end.

Definition remove_cmd (ctx : Context) (user : option Member) (s : Table) : Reply * Table :=
  match ctx_guild ctx, user with
  | None, _ => (ServerOnly, s)
  | Some _, None => (UsageRemove, s)
  | Some guild, Some usr =>
      let r := _remove_user (gid guild) (member_id usr) s in
      if r.1 then (Removed (name_for (Some usr) (member_name usr)), r.2)
      else (NotOnLeaderboard, r.2)
  end.

Definition set_cmd (ctx : Context) (user : option Member) (amount : option Z)
    (s : Table) : Reply * Table :=
  match ctx_guild ctx, user, amount with
  | None, _, _ => (ServerOnly, s)
  | Some _, None, _ | Some _, _, None => (UsageSet, s)
  | Some guild, Some usr, Some amt =>
      if decide (amt < 0) then (AmountNegative, s)
      else
        match _set_count (gid guild) (member_id usr) amt
                (name_for (Some usr) (member_name usr)) s with
        | Some r => (SetTo (name_for (Some usr) (member_name usr)) r.1, r.2)
        | None => (CommandRaised, s)
        end
  end.

Definition resetall_cmd (ctx : Context) (s : Table) : Reply * Table :=
  match ctx_guild ctx with
  | None => (ServerOnly, s)
  | Some guild =>
      let r := _reset_all (gid guild) s in
      (ResetDone r.1, r.2)
  end.

(** What follows the command name in the message, as the converters of
    discord.py classify it. *)
Inductive Arg :=
| ArgMember (m : Member)
| ArgInt (z : Z)
| ArgText (t : string).

(** A parameter annotated [Optional[discord.Member] = None], and one
    annotated [Optional[int] = None]: a token that does not convert leaves
    the parameter at [None] and stays for the next parameter. *)
Definition bind_member (args : list Arg) : option Member * list Arg :=
  match args with
  | ArgMember m :: rest => (Some m, rest)
  | _ => (None, args)
  end.

Definition bind_int (args : list Arg) : option Z * list Arg :=
  match args with
  | ArgInt z :: rest => (Some z, rest)
  | _ => (None, args)
  end.

Inductive Verdict := Pass | Deny (r : Reply).

Section RoleChecks.

(** [str.lower]; its table belongs to Python, so the checks are taken over
    any such function. *)
Variable lower : string → string.

Definition _member_has_any_roles (member : Member) (role_names : list string) : bool :=
  let wanted : gset string := list_to_set (lower <$> role_names) in
  let current : gset string :=
    list_to_set ((λ r, lower (role_name r)) <$> member_roles member) in
  negb (bool_decide (current ## wanted)).

(** The predicate built by the decorator [has_any_named_roles]: [Deny r] is
    "reply r, return False". *)
Definition has_any_named_roles (role_names : list string) (ctx : Context) : Verdict :=
  match ctx_guild ctx with
  | None => Deny ServerOnly
  | Some _ =>
      if negb (author_is_member ctx) then Deny ServerOnly
      else if negb (_member_has_any_roles (ctx_author ctx) role_names)
      then Deny (NeedRole role_names)
      else Pass
  end.

(** A command runs its checks first; a failed check leaves the callback
    uncalled. *)
Definition guarded (chk : Context → Verdict) (ctx : Context)
    (callback : Table → Reply * Table) (s : Table) : Reply * Table :=
  match chk ctx with
  | Deny r => (r, s)
  | Pass => callback s
  end.

(** The registrations [@bot.command(name=..., aliases=...)] with their
    checks.  A callback binds the parameters it declares; tokens beyond
    them are ignored (the default of [commands.Bot]).  [None] is an unknown
    command name. *)
Definition invoke (name : string) (args : list Arg) (ctx : Context) (s : Table)
    : option (Reply * Table) :=
  if bool_decide (name = "add") then
    Some (guarded (has_any_named_roles ["Chef"]) ctx (add_cmd ctx) s)
  else if bool_decide (name ∈ ["leaderboard"; "lb"; "top"]) then
    Some (leaderboard_cmd ctx s)
  else if bool_decide (name = "remove") then
    let user := (bind_member args).1 in
    Some (guarded (has_any_named_roles ["Head Chef"; "Owner"]) ctx (remove_cmd ctx user) s)
  else if bool_decide (name = "set") then
    let ua := bind_member args in
    let amount := (bind_int ua.2).1 in
    Some (guarded (has_any_named_roles ["Head Chef"; "Owner"]) ctx (set_cmd ctx ua.1 amount) s)
  else if bool_decide (name = "resetall") then
    Some (guarded (has_any_named_roles ["Head Chef"; "Owner"]) ctx (resetall_cmd ctx) s)
  else None.

End RoleChecks.

End Engine.

(** Lower-casing of the ASCII letters, to run the checks on examples. *)
Definition lower_char (c : Ascii.ascii) : Ascii.ascii :=
  let n := Ascii.nat_of_ascii c in
  if ((65 <=? n) && (n <=? 90))%nat then Ascii.ascii_of_nat (n + 32) else c.

Fixpoint ascii_lower (s : string) : string :=
  match s with
  | EmptyString => EmptyString
  | String c rest => String (lower_char c) (ascii_lower rest)
  end.

(** ** Vocabulary of the statements *)

(** A history of writes to the store. *)
Inductive StoreOp :=
| OpAdd (g u delta : Z) (nm : string)
| OpSet (g u value : Z) (nm : string)
| OpRemove (g u : Z)
| OpResetAll (g : Z).

(** The table a helper leaves: the one it committed, or the one it found
    when it raised. *)
Definition table_after {A} (r : option (A * Table)) (s : Table) : Table :=
  from_option snd s r.

Definition apply_op (bits : nat) (s : Table) (op : StoreOp) : Table :=
  match op with
  | OpAdd g u delta nm => table_after (_add_count bits g u delta nm s) s
  | OpSet g u value nm => table_after (_set_count bits g u value nm s) s
  | OpRemove g u => (_remove_user g u s).2
  | OpResetAll g => (_reset_all g s).2
  end.

Definition run_ops (bits : nat) (ops : list StoreOp) (s : Table) : Table :=
  foldl (apply_op bits) s ops.

Definition nonneg (s : Table) : Prop :=
  map_Forall (λ _ v, 0 ≤ v.2) s.

(** Every stored count is one the INTEGER column holds. *)
Definition in_range (bits : nat) (s : Table) : Prop :=
  map_Forall (λ _ v, v.2 ≤ int_max bits) s.

(** The count a call starts from: 0 when the pair has no row. *)
Definition count_before (g u : Z) (s : Table) : Z :=
  from_option snd 0 (s !! (g, u)).

(** The name a helper leaves in the row: the given one for a new row and for
    a non-empty name, the stored one otherwise. *)
Definition name_after (g u : Z) (nm : string) (s : Table) : string :=
  match s !! (g, u) with
  | None => nm
  | Some v => if truthy nm then nm else v.1
  end.

(** Count descending, then user id ascending, with no two rows level. *)
Definition ranked_before (a b : Order) : Prop :=
  count b < count a ∨ (count a = count b ∧ user_id a < user_id b).

(** The rows of a guild, counted on the table itself. *)
Definition guild_size (g : Z) (s : Table) : nat :=
  size (filter (λ kv : Z * Z * (string * Z), kv.1.1 = g) s).

(** [n] calls of [_add_count g u 1 nm], one after the other. *)
Definition add_n (bits n : nat) (g u : Z) (nm : string) (s : Table) : Table :=
  Nat.iter n (λ t, table_after (_add_count bits g u 1 nm t) t) s.

(** How a call that runs alone ends: returned with its count, or raised. *)
Definition call_outcome (bits : nat) (g u delta : Z) (nm : string) (s : Table) : Phase :=
  match _add_count bits g u delta nm s with
  | Some r => Returned r.1
  | None => Raised
  end.

(** ** Configuration: [DATABASE_URL]

    The three string methods the module-level code calls. *)

(** [s.startswith(p)]. *)
Fixpoint startswith (s p : string) {struct p} : bool :=
  match p, s with
  | EmptyString, _ => true
  | String _ _, EmptyString => false
  | String a p', String b s' => Ascii.eqb a b && startswith s' p'
  end.

(** [p in s]. *)
Fixpoint contains (s p : string) : bool :=
  startswith s p ||
  match s with
  | EmptyString => false
  | String _ s' => contains s' p
  end.

Fixpoint string_drop (n : nat) (s : string) : string :=
  match n, s with
  | O, _ => s
  | S _, EmptyString => EmptyString
  | S n', String _ s' => string_drop n' s'
  end.

(** [s.replace(old, new, 1)]: the leftmost occurrence only. *)
Fixpoint replace_first (s old new : string) : string :=
  if startswith s old then new +:+ string_drop (String.length old) s
  else match s with
       | EmptyString => EmptyString
       | String c s' => String c (replace_first s' old new)
       end.

(** The value of [DATABASE_URL] after the module has loaded, from what
    [os.getenv] returned ([None] when the variable is not set). *)
Definition database_url (env : option string) : string :=
  let url := match env with
             | Some u => if truthy u then u else "sqlite:///leaderboard.db"
             | None => "sqlite:///leaderboard.db"
             end in
  if startswith url "postgres://"
  then replace_first url "postgres://" "postgresql+psycopg2://"
  else if startswith url "postgresql://" && negb (contains url "+psycopg2")
  then replace_first url "postgresql://" "postgresql+psycopg2://"
  else url.

(** ** Histories of commands *)

Record Invocation := mkInvocation {
  inv_name : string;
  inv_args : list Arg;
  inv_ctx : Context
}.

(** The table after one message, handled to its end before the next one is;
    a name that is no command changes nothing. *)
Definition after_invocation (bits : nat) (lower : string → string) (s : Table)
    (i : Invocation) : Table :=
  match invoke bits lower (inv_name i) (inv_args i) (inv_ctx i) s with
  | Some r => r.2
  | None => s
  end.

Definition run_invocations (bits : nat) (lower : string → string)
    (invs : list Invocation) (s : Table) : Table :=
  foldl (after_invocation bits lower) s invs.

(** The guild a write is scoped to. *)
Definition op_guild (op : StoreOp) : Z :=
  match op with
  | OpAdd g _ _ _ | OpSet g _ _ _ | OpRemove g _ | OpResetAll g => g
  end.

(** A call that has read a row has read the row of its own pair. *)
Definition reads_pair (g u : Z) (ph : Phase) : Prop :=
  match ph with
  | Selected (Some old) => (guild_id old, user_id old) = (g, u)
  | Committed row => (guild_id row, user_id row) = (g, u)
  | _ => True
  end.

(** ** The store helpers *)

Lemma or0_id c : or0 c = c.
Proof. unfold or0. case_decide; congruence. Qed.

Lemma refresh_name_count row nm : count (refresh_name row nm) = count row.
Proof. unfold refresh_name. by destruct (_ && _). Qed.

Lemma refresh_name_key row nm :
  (guild_id (refresh_name row nm), user_id (refresh_name row nm)) = (guild_id row, user_id row).
Proof. unfold refresh_name. by destruct (_ && _). Qed.

Lemma refresh_name_name row nm :
  display_name (refresh_name row nm) = if truthy nm then nm else display_name row.
Proof.
  unfold refresh_name. destruct (truthy nm); simpl; [|done].
  destruct (String.eqb_spec (display_name row) nm); simpl; congruence.
Qed.

Lemma find_or_create_key g u nm s :
  let row := find_or_create g u nm (select_one g u s) in
  (guild_id row, user_id row) = (g, u).
Proof. unfold select_one. by destruct (s !! (g, u)). Qed.

Lemma find_or_create_count g u nm s :
  count (find_or_create g u nm (select_one g u s)) = count_before g u s.
Proof. unfold select_one, count_before. by destruct (s !! (g, u)). Qed.

Lemma refresh_find_or_create_name g u nm c s :
  display_name (refresh_name (with_count (find_or_create g u nm (select_one g u s)) c) nm)
  = name_after g u nm s.
Proof.
  rewrite refresh_name_name. unfold select_one, name_after.
  destruct (s !! (g, u)); simpl; [done|]. by destruct (truthy nm).
Qed.

Lemma int_max_nonneg (bits : nat) : 0 ≤ int_max bits.
Proof.
  unfold int_max. pose proof (Z.pow_pos_nonneg 2 (Z.of_nat bits)). lia.
Qed.

Lemma fits_nonneg (bits : nat) (c : Z) :
  0 ≤ c → fits bits c = bool_decide (c ≤ int_max bits).
Proof.
  intros Hc. unfold fits. pose proof (int_max_nonneg bits). unfold int_max in *.
  apply bool_decide_ext. lia.
Qed.

Lemma fits_max (bits : nat) (x : Z) :
  fits bits (Z.max 0 x) = bool_decide (Z.max 0 x ≤ int_max bits).
Proof. apply fits_nonneg. lia. Qed.

Lemma fits_0 (bits : nat) : fits bits 0 = true.
Proof.
  rewrite fits_nonneg by done. apply bool_decide_eq_true_2, int_max_nonneg.
Qed.

(** A commit followed by the reload of the count. *)
Lemma commit_reload (bits : nat) (row : Order) (s : Table) :
  (s' ← commit bits row s; c ← reload_count row s'; Some (c, s'))
  = if fits bits (count row) then Some (count row, flush row s) else None.
Proof.
  unfold commit. destruct (fits bits (count row)); [|done]. simpl.
  unfold reload_count, flush. by rewrite lookup_insert_eq.
Qed.

(** [_add_count] in one piece: the count it aims at, and, when that count
    fits the column, the one write it commits. *)
Lemma add_count_table (bits : nat) (g u delta : Z) (nm : string) (s : Table) :
  _add_count bits g u delta nm s
  = if bool_decide (Z.max 0 (count_before g u s + delta) ≤ int_max bits)
    then Some (Z.max 0 (count_before g u s + delta),
               <[(g, u) := (name_after g u nm s, Z.max 0 (count_before g u s + delta))]> s)
    else None.
Proof.
  unfold _add_count. rewrite commit_reload. unfold flush.
  rewrite refresh_name_count, refresh_name_key, refresh_find_or_create_name. simpl.
  pose proof (find_or_create_key g u nm s) as Hk. simpl in Hk. rewrite Hk.
  by rewrite or0_id, find_or_create_count, fits_max.
Qed.

Lemma set_count_table (bits : nat) (g u value : Z) (nm : string) (s : Table) :
  _set_count bits g u value nm s
  = if bool_decide (Z.max 0 value ≤ int_max bits)
    then Some (Z.max 0 value, <[(g, u) := (name_after g u nm s, Z.max 0 value)]> s)
    else None.
Proof.
  unfold _set_count. rewrite commit_reload. unfold flush.
  rewrite refresh_name_count, refresh_name_key, refresh_find_or_create_name. simpl.
  pose proof (find_or_create_key g u nm s) as Hk. simpl in Hk. rewrite Hk.
  by rewrite fits_max.
Qed.

(** Whether it commits or raises, a helper leaves the rows of the other
    pairs alone and no count below 0. *)
Lemma table_after_add (bits : nat) (g u delta : Z) (nm : string) (s : Table) :
  table_after (_add_count bits g u delta nm s) s = s
  ∨ table_after (_add_count bits g u delta nm s) s
    = <[(g, u) := (name_after g u nm s, Z.max 0 (count_before g u s + delta))]> s.
Proof. rewrite add_count_table. case_bool_decide; [by right|by left]. Qed.

Lemma table_after_set (bits : nat) (g u value : Z) (nm : string) (s : Table) :
  table_after (_set_count bits g u value nm s) s = s
  ∨ table_after (_set_count bits g u value nm s) s
    = <[(g, u) := (name_after g u nm s, Z.max 0 value)]> s.
Proof. rewrite set_count_table. case_bool_decide; [by right|by left]. Qed.

Lemma remove_user_table g u s :
  _remove_user g u s = (bool_decide (is_Some (s !! (g, u))), delete (g, u) s).
Proof.
  unfold _remove_user, select_one. destruct (s !! (g, u)) as [v|] eqn:E; simpl.
  - done.
  - by rewrite delete_id.
Qed.

(** ** Rows of one guild *)

Lemma elem_of_select_guild g s r :
  r ∈ select_guild g s ↔
  guild_id r = g ∧ s !! (guild_id r, user_id r) = Some (display_name r, count r).
Proof.
  unfold select_guild. rewrite list_elem_of_fmap. split.
  - intros [[[g' u'] [nm c]] [-> Hin]].
    apply list_elem_of_filter in Hin as [Hg Hin].
    apply elem_of_map_to_list in Hin. by simpl in *.
  - intros [Hg Hl]. exists ((guild_id r, user_id r), (display_name r, count r)).
    split; [by destruct r|].
    apply list_elem_of_filter. split; [done|]. by apply elem_of_map_to_list.
Qed.

Lemma NoDup_guild_keys (g : Z) (s : Table) :
  NoDup (filter (λ kv : Z * Z * (string * Z), kv.1.1 = g) (map_to_list s)).*1.
Proof.
  eapply sublist_NoDup; [apply (NoDup_fst_map_to_list s)|].
  apply fmap_sublist, sublist_filter.
Qed.

Lemma select_guild_length g s : length (select_guild g s) = guild_size g s.
Proof.
  unfold select_guild, guild_size. rewrite length_fmap, map_filter_alt.
  by rewrite map_size_list_to_map by apply NoDup_guild_keys.
Qed.

Lemma NoDup_select_guild_users g s : NoDup (user_id <$> select_guild g s).
Proof.
  unfold select_guild. rewrite <-list_fmap_compose.
  apply NoDup_fmap_2_strong.
  - intros [[g1 u1] v1] [[g2 u2] v2] [H1 I1]%list_elem_of_filter [H2 I2]%list_elem_of_filter Hu.
    apply elem_of_map_to_list in I1, I2. simpl in *. subst. congruence.
  - eapply sublist_NoDup; [apply NoDup_map_to_list|apply sublist_filter].
Qed.

(** ** [_reset_all] *)

Lemma lookup_flush (r : Order) (s : Table) (k : Z * Z) :
  flush r s !! k
  = if decide (k = (guild_id r, user_id r)) then Some (display_name r, count r) else s !! k.
Proof.
  unfold flush. case_decide as Hk.
  - subst k. apply lookup_insert_eq.
  - by apply lookup_insert_ne.
Qed.

Lemma reset_loop_count rows n0 s :
  (foldl (λ (acc : Z * Table) r, (acc.1 + 1, flush (with_count r 0) acc.2)) (n0, s) rows).1
  = n0 + Z.of_nat (length rows).
Proof.
  revert n0 s. induction rows as [|r rows IH]; intros n0 s; simpl; [lia|].
  rewrite IH. lia.
Qed.

Lemma reset_loop_lookup (rows : list Order) (n0 : Z) (s : Table) (k : Z * Z) :
  (∀ r, r ∈ rows → s !! (guild_id r, user_id r) = Some (display_name r, count r)) →
  (foldl (λ (acc : Z * Table) r, (acc.1 + 1, flush (with_count r 0) acc.2)) (n0, s) rows).2 !! k
  = if decide (k ∈ (λ r, (guild_id r, user_id r)) <$> rows)
    then (λ v : string * Z, (v.1, 0)) <$> s !! k
    else s !! k.
Proof.
  induction rows as [|r rows IH] using rev_ind; intros Hrows.
  { done. }
  rewrite foldl_snoc. simpl. rewrite lookup_flush. simpl.
  destruct (decide (k = (guild_id r, user_id r))) as [->|Hne].
  - rewrite decide_True.
    + rewrite Hrows; [done|]. apply elem_of_app. right. apply list_elem_of_singleton. done.
    + rewrite fmap_app. apply elem_of_app. right. apply list_elem_of_singleton. done.
  - rewrite IH.
    + apply decide_ext. rewrite fmap_app, elem_of_app.
      split; [by left|]. intros [?|Hin]; [done|].
      apply list_elem_of_singleton in Hin. done.
    + intros r' Hr'. apply Hrows, elem_of_app. by left.
Qed.

Lemma reset_all_lookup g s k :
  (_reset_all g s).2 !! k
  = (λ v : string * Z, (v.1, if decide (k.1 = g) then 0 else v.2)) <$> s !! k.
Proof.
  unfold _reset_all, reset_loop. rewrite reset_loop_lookup.
  2:{ intros r Hr. by apply elem_of_select_guild in Hr as [_ ?]. }
  case_decide as Hk.
  - apply list_elem_of_fmap in Hk as [r [-> Hr]].
    apply elem_of_select_guild in Hr as [Hg _].
    destruct (s !! _) as [[nm c]|]; simpl; [|done]. by rewrite decide_True.
  - destruct (s !! k) as [[nm c]|] eqn:E; [|done]. simpl.
    case_decide as Hg; [|done]. exfalso. apply Hk.
    apply list_elem_of_fmap. exists (row_of k (nm, c)). destruct k as [g' u']. simpl in *.
    split; [done|]. apply elem_of_select_guild. by simpl.
Qed.

Lemma reset_all_count g s : (_reset_all g s).1 = Z.of_nat (guild_size g s).
Proof.
  unfold _reset_all, reset_loop. rewrite reset_loop_count, select_guild_length. lia.
Qed.

(** ** [_top_n] *)

#[global] Instance order_by_trans : Transitive order_by.
Proof. intros a b c. unfold order_by. lia. Qed.

#[global] Instance order_by_total : Total order_by.
Proof. intros a b. unfold order_by. lia. Qed.

Lemma StronglySorted_take {A} (R : relation A) (l : list A) (n : nat) :
  StronglySorted R l → StronglySorted R (take n l).
Proof.
  intros Hl. rewrite <-(take_drop n l) in Hl. by apply StronglySorted_app_1_l in Hl.
Qed.

(** Rows with pairwise different user ids are never level. *)
Lemma order_by_ranked (l : list Order) :
  NoDup (user_id <$> l) → StronglySorted order_by l → StronglySorted ranked_before l.
Proof.
  induction l as [|a l IH]; intros Hnd Hs; [constructor|].
  rewrite fmap_cons in Hnd. apply NoDup_cons in Hnd as [Ha Hnd].
  apply StronglySorted_cons in Hs as [Hall Hs].
  apply StronglySorted_cons. split; [|by apply IH].
  rewrite Forall_forall in Hall. apply Forall_forall. intros b Hb.
  specialize (Hall b Hb).
  assert (user_id a ≠ user_id b).
  { intros Heq. apply Ha. rewrite Heq. by apply list_elem_of_fmap_2. }
  unfold order_by in Hall. unfold ranked_before. lia.
Qed.

Lemma sorted_guild_ranked g s :
  StronglySorted ranked_before (merge_sort order_by (select_guild g s)).
Proof.
  apply order_by_ranked.
  - rewrite merge_sort_Permutation. apply NoDup_select_guild_users.
  - apply StronglySorted_merge_sort; apply _.
Qed.

Lemma elem_of_top_n g n s row :
  row ∈ (_top_n g n s).1 →
  guild_id row = g ∧ s !! (g, user_id row) = Some (display_name row, count row).
Proof.
  unfold _top_n; simpl. intros Hin%subseteq_take.
  rewrite merge_sort_Permutation in Hin.
  apply elem_of_select_guild in Hin as [<- ?]. done.
Qed.

Lemma top_n_length g n s : length (_top_n g n s).1 = (n `min` guild_size g s)%nat.
Proof.
  unfold _top_n; simpl.
  by rewrite length_take, merge_sort_Permutation, select_guild_length.
Qed.

Lemma guild_size_empty (g : Z) (s : Table) :
  (∀ u : Z, s !! (g, u) = None) → guild_size g s = 0%nat.
Proof.
  intros Hnone. unfold guild_size.
  apply map_size_empty_iff, map_empty_filter.
  intros [g' u'] v Hl Hg. simpl in Hg. subst g'. by rewrite Hnone in Hl.
Qed.


Lemma stored_row_in_sorted (g u : Z) (v : string * Z) (s : Table) :
  s !! (g, u) = Some v → row_of (g, u) v ∈ merge_sort order_by (select_guild g s).
Proof.
  intros Hl. rewrite merge_sort_Permutation. apply elem_of_select_guild.
  destruct v. by simpl.
Qed.

(** The rows the limit cuts off come after the rows it keeps. *)
Lemma top_n_left_out (g : Z) (n : nat) (s : Table) (u : Z) (v : string * Z) (r : Order) :
  s !! (g, u) = Some v →
  row_of (g, u) v ∉ (_top_n g n s).1 →
  r ∈ (_top_n g n s).1 →
  ranked_before r (row_of (g, u) v).
Proof.
  unfold _top_n. cbn [fst]. intros Hl Hout Hin.
  pose proof (sorted_guild_ranked g s) as Hs.
  pose proof (stored_row_in_sorted g u v s Hl) as Hrow.
  rewrite <-(take_drop n (merge_sort order_by (select_guild g s))) in Hs, Hrow.
  apply elem_of_app in Hrow as [Hrow|Hrow]; [done|].
  by apply (StronglySorted_app_1_elem_of _ _ _ _ _ Hs).
Qed.

(** ** The claims on the store *)

Lemma apply_op_nonneg (bits : nat) (op : StoreOp) (s : Table) :
  nonneg s → nonneg (apply_op bits s op).
Proof.
  intros Hs. destruct op as [g u delta nm|g u value nm|g u|g]; unfold apply_op.
  - destruct (table_after_add bits g u delta nm s) as [->| ->]; [done|].
    apply map_Forall_insert_2; [simpl; lia|done].
  - destruct (table_after_set bits g u value nm s) as [->| ->]; [done|].
    apply map_Forall_insert_2; [simpl; lia|done].
  - rewrite remove_user_table. simpl. by apply map_Forall_delete.
  - intros k v. rewrite reset_all_lookup.
    destruct (s !! k) as [[nm c]|] eqn:E; simpl; [|done].
    intros [= <-]. simpl. case_decide; [lia|]. apply (Hs k (nm, c) E).
Qed.

Lemma run_ops_nonneg (bits : nat) (ops : list StoreOp) (s : Table) :
  nonneg s → nonneg (run_ops bits ops s).
Proof.
  unfold run_ops. revert s. induction ops as [|op ops IH]; intros s Hs; simpl; [done|].
  by apply IH, apply_op_nonneg.
Qed.

(** C1.  Starting from a table whose counts are all at least 0 (the empty
    table of a fresh database in particular), every history of [_add_count],
    [_set_count], [_remove_user] and [_reset_all] calls leaves every stored
    count at least 0, whether the calls commit or raise; an increment whose
    sum would be negative and a set to a negative value both commit, return
    0 and store 0. *)
Theorem count_never_negative (bits : nat) (ops : list StoreOp) (s : Table) (g u x : Z)
    (nm : string) :
  nonneg s →
  nonneg (run_ops bits ops s)
  ∧ (count_before g u s + x < 0 →
     _add_count bits g u x nm s = Some (0, <[(g, u) := (name_after g u nm s, 0)]> s)
     ∧ stored_count g u (table_after (_add_count bits g u x nm s) s) = Some 0)
  ∧ (x < 0 →
     _set_count bits g u x nm s = Some (0, <[(g, u) := (name_after g u nm s, 0)]> s)
     ∧ stored_count g u (table_after (_set_count bits g u x nm s) s) = Some 0).
Proof.
  intros Hs. split; [by apply run_ops_nonneg|].
  pose proof (int_max_nonneg bits) as Hmax.
  unfold stored_count. split; intros Hneg.
  - rewrite add_count_table. rewrite Z.max_l by lia.
    rewrite bool_decide_eq_true_2 by done. simpl. by rewrite lookup_insert_eq.
  - rewrite set_count_table. rewrite Z.max_l by lia.
    rewrite bool_decide_eq_true_2 by done. simpl. by rewrite lookup_insert_eq.
Qed.

Lemma count_never_negative_witness :
  let ops := [OpAdd 7 42 (-5) "Bob"; OpSet 7 43 (-2) "Eve"; OpAdd 7 42 3 "Bob";
              OpSet 7 44 9223372036854775808 "Max";
              OpResetAll 7; OpAdd 8 42 1 "Bob"; OpRemove 7 43] in
  nonneg (run_ops 63 ops ∅)
  ∧ stored_count 7 42 (table_after (_add_count 63 7 42 (-3) "Bob" ∅) ∅) = Some 0
  ∧ stored_count 7 42 (table_after (_set_count 63 7 42 (-3) "Bob" ∅) ∅) = Some 0.
Proof.
  intros ops.
  destruct (count_never_negative 63 ops ∅ 7 42 (-3) "Bob") as (H1 & H2 & H3).
  - apply map_Forall_empty.
  - split; [exact H1|]. split; [apply H2|apply H3]; reflexivity.
Defined.

(** C2, as stated, at a row whose count is the largest the column holds: the
    commit raises, so no count is returned and the row keeps its count.  The
    same on a 32-bit column. *)
Lemma add_count_overflow_raises :
  let s : Table := {[ (7, 42) := ("Bob", 9223372036854775807) ]} in
  let s' : Table := {[ (7, 42) := ("Bob", 2147483647) ]} in
  _add_count 63 7 42 1 "Bob" s = None
  ∧ table_after (_add_count 63 7 42 1 "Bob" s) s = s
  ∧ _add_count 31 7 42 1 "Bob" s' = None.
Proof.
  intros s s'. rewrite !add_count_table. unfold s, s', count_before.
  rewrite !lookup_singleton_eq. done.
Qed.

(** C2, amended.  [_add_count g u delta nm] aims at [max 0 (old + delta)],
    where [old] is the stored count, or 0 when the pair had no row.  When
    that count fits the INTEGER column, it is returned, and afterwards the
    pair has a row with that count, whose name is [nm] when [nm] is non-empty
    or the row is new, and the stored name otherwise; no other row changes.
    When it does not fit, the commit raises: nothing is returned and the
    table is as it was. *)
Theorem add_count_spec (bits : nat) (g u delta : Z) (nm : string) (s : Table) :
  let c := Z.max 0 (count_before g u s + delta) in
  _add_count bits g u delta nm s
  = (if bool_decide (c ≤ int_max bits)
     then Some (c, <[(g, u) := (name_after g u nm s, c)]> s)
     else None)
  ∧ table_after (_add_count bits g u delta nm s) s
    = (if bool_decide (c ≤ int_max bits)
       then <[(g, u) := (name_after g u nm s, c)]> s
       else s)
  ∧ count_before g u s = match s !! (g, u) with None => 0 | Some v => v.2 end
  ∧ name_after g u nm s = match s !! (g, u), truthy nm with
                          | Some v, false => v.1
                          | _, _ => nm
                          end.
Proof.
  cbv zeta. rewrite add_count_table.
  split; [done|]. split; [by case_bool_decide|].
  unfold count_before, name_after. split.
  - by destruct (s !! (g, u)).
  - destruct (s !! (g, u)); by destruct (truthy nm).
Qed.

(** C3, as stated, at a row named Bob and an empty name: the row keeps the
    name Bob, so the given name is not what is stored.  And at a value one
    above the largest the column holds: the commit raises and the row keeps
    its count. *)
Lemma set_count_empty_name_kept :
  let s : Table := {[ (7, 42) := ("Bob", 3) ]} in
  _set_count 63 7 42 5 EmptyString s = Some (5, <[(7, 42) := ("Bob", 5)]> s)
  ∧ fst <$> table_after (_set_count 63 7 42 5 EmptyString s) s !! (7, 42) ≠ Some EmptyString
  ∧ _set_count 63 7 42 9223372036854775808 "Bob" s = None
  ∧ table_after (_set_count 63 7 42 9223372036854775808 "Bob" s) s = s.
Proof.
  intros s. rewrite !set_count_table. unfold s, name_after.
  rewrite !lookup_singleton_eq. simpl. rewrite lookup_insert_eq.
  split; [done|]. split; [discriminate|done].
Qed.

(** C3, amended.  [_set_count g u value nm] aims at [max 0 value].  When that
    count fits the INTEGER column, it is returned, and afterwards the pair
    has a row with that count, whose name is [nm] when [nm] is non-empty or
    the row is new, and the stored name otherwise.  When it does not fit, the
    commit raises: nothing is returned and the table is as it was.
    [set_cmd] answers a negative amount itself and leaves the table alone, so
    the clamp in the helper, which would store 0, is a second line of
    defence. *)
Theorem set_count_spec (bits : nat) (g u value : Z) (nm : string) (s : Table)
    (ctx : Context) (usr : Member) :
  let c := Z.max 0 value in
  _set_count bits g u value nm s
  = (if bool_decide (c ≤ int_max bits)
     then Some (c, <[(g, u) := (name_after g u nm s, c)]> s)
     else None)
  ∧ table_after (_set_count bits g u value nm s) s
    = (if bool_decide (c ≤ int_max bits)
       then <[(g, u) := (name_after g u nm s, c)]> s
       else s)
  ∧ name_after g u nm s = match s !! (g, u), truthy nm with
                          | Some v, false => v.1
                          | _, _ => nm
                          end
  ∧ (value < 0 → is_Some (ctx_guild ctx) →
     fst <$> _set_count bits g u value nm s = Some 0
     ∧ set_cmd bits ctx (Some usr) (Some value) s = (AmountNegative, s)).
Proof.
  cbv zeta. rewrite set_count_table.
  split; [done|]. split; [by case_bool_decide|].
  unfold name_after. split.
  - destruct (s !! (g, u)); by destruct (truthy nm).
  - intros Hneg [guild Hg]. split.
    + rewrite Z.max_l by lia.
      by rewrite bool_decide_eq_true_2 by apply int_max_nonneg.
    + unfold set_cmd. rewrite Hg. by rewrite decide_True.
Qed.

Lemma set_count_spec_witness :
  let s : Table := {[ (7, 42) := ("Bob", 3) ]} in
  let usr := mkMember 42 "bob" "Bobby" [] in
  let ctx := mkContext (Some (mkGuild 7 [usr])) (mkMember 1 "own" "Owner" [mkRole "Owner"]) true in
  _set_count 63 7 42 (-5) "Bobby" s = Some (0, <[(7, 42) := ("Bobby", 0)]> s)
  ∧ set_cmd 63 ctx (Some usr) (Some (-5)) s = (AmountNegative, s).
Proof.
  intros s usr ctx.
  destruct (set_count_spec 63 7 42 (-5) "Bobby" s ctx usr) as (H1 & H2 & H3 & H4).
  destruct H4 as [H5 H6]; [reflexivity|by eexists|].
  split; [|exact H6].
  rewrite H1, H3. unfold s. by rewrite lookup_singleton_eq.
Defined.

(** C4.  [_top_n g n] returns at most [n] rows (exactly the smaller of [n] and
    the number of rows of the guild), all of them rows of guild [g] as
    stored, ordered by count descending and, for equal counts, by user id
    ascending; they are the first of that order: a stored row of the guild is
    either returned or comes after every returned row.  It returns no row for
    a guild without rows, leaves the table as it is, and a second call
    returns the same. *)
Theorem top_n_spec (g : Z) (n : nat) (s : Table) (u : Z) (v : string * Z) :
  let r := _top_n g n s in
  (length r.1 ≤ n)%nat
  ∧ length r.1 = (n `min` guild_size g s)%nat
  ∧ StronglySorted ranked_before r.1
  ∧ Forall (λ row, guild_id row = g
                   ∧ s !! (g, user_id row) = Some (display_name row, count row)) r.1
  ∧ (s !! (g, u) = Some v →
     row_of (g, u) v ∈ r.1 ∨ Forall (λ row, ranked_before row (row_of (g, u) v)) r.1)
  ∧ ((∀ u' : Z, s !! (g, u') = None) → r.1 = [])
  ∧ r.2 = s
  ∧ _top_n g n r.2 = r.
Proof.
  cbv zeta. rewrite top_n_length.
  split; [lia|]. split; [done|]. split.
  { unfold _top_n; simpl. apply StronglySorted_take, sorted_guild_ranked. }
  split.
  { apply Forall_forall. intros row Hrow. by apply elem_of_top_n in Hrow. }
  split.
  { intros Hl. destruct (decide (row_of (g, u) v ∈ (_top_n g n s).1)) as [Hin|Hout].
    - by left.
    - right. apply Forall_forall. intros row Hrow. by apply (top_n_left_out g n s u v). }
  split; [|done].
  intros Hnone. apply length_zero_iff_nil.
  rewrite top_n_length, guild_size_empty by done. lia.
Qed.

Lemma top_n_spec_witness :
  let s : Table := {[ (8, 1) := ("Ann", 4) ]} in
  let t : Table := {[ (7, 1) := ("Ann", 4); (7, 2) := ("Ben", 9); (7, 3) := ("Cat", 4) ]} in
  (_top_n 7 10 s).1 = []
  ∧ (mkOrder 7 3 "Cat" 4 ∈ (_top_n 7 2 t).1
     ∨ Forall (λ row, ranked_before row (mkOrder 7 3 "Cat" 4)) (_top_n 7 2 t).1).
Proof.
  intros s t. split.
  - apply (top_n_spec 7 10 s 1 ("Ann", 4)).
    intros u. apply lookup_singleton_ne. congruence.
  - apply (top_n_spec 7 2 t 3 ("Cat", 4)). reflexivity.
Defined.

(** C6.  [_remove_user g u] returns whether the pair had a row, and leaves
    the table without it; a second call returns false and changes nothing,
    and no [_top_n] read of the table lists the pair. *)
Theorem remove_user_spec (g u g' : Z) (n : nat) (s : Table) :
  let r := _remove_user g u s in
  r.1 = bool_decide (is_Some (s !! (g, u)))
  ∧ r.2 = delete (g, u) s
  ∧ r.2 !! (g, u) = None
  ∧ _remove_user g u r.2 = (false, r.2)
  ∧ Forall (λ row, (guild_id row, user_id row) ≠ (g, u)) (_top_n g' n r.2).1.
Proof.
  cbv zeta. rewrite !remove_user_table. simpl.
  split; [done|]. split; [done|]. split; [apply lookup_delete_eq|]. split.
  - rewrite lookup_delete_eq. f_equal. by rewrite delete_delete_eq.
  - apply Forall_forall. intros row Hrow [= Hg Hu].
    apply elem_of_top_n in Hrow as [Hg' Hl].
    rewrite <-Hg', Hg, Hu in Hl. by rewrite lookup_delete_eq in Hl.
Qed.

(** C7.  [_reset_all g] returns the number of rows of guild [g]; afterwards
    the table has the same rows with the same names, the counts of guild [g]
    are 0 and the counts of the other guilds are as before. *)
Theorem reset_all_spec (g : Z) (s : Table) :
  let r := _reset_all g s in
  r.1 = Z.of_nat (guild_size g s)
  ∧ ∀ g' u' : Z,
      r.2 !! (g', u')
      = (λ v : string * Z, (v.1, if decide (g' = g) then 0 else v.2)) <$> s !! (g', u').
Proof.
  cbv zeta. split; [apply reset_all_count|].
  intros g' u'. by rewrite reset_all_lookup.
Qed.

(** C10.  [_add_count], [_set_count] and [_remove_user] on the pair [(g, u)]
    leave the row of every other pair as it is, in the same guild and in any
    other, whether they commit or raise; [_reset_all g] leaves the rows of
    every other guild as they are. *)
Theorem other_rows_untouched (bits : nat) (g u x : Z) (nm : string) (s : Table) (g' u' : Z) :
  ((g', u') ≠ (g, u) →
     table_after (_add_count bits g u x nm s) s !! (g', u') = s !! (g', u')
     ∧ table_after (_set_count bits g u x nm s) s !! (g', u') = s !! (g', u')
     ∧ (_remove_user g u s).2 !! (g', u') = s !! (g', u'))
  ∧ (g' ≠ g → (_reset_all g s).2 !! (g', u') = s !! (g', u')).
Proof.
  split.
  - intros Hne. rewrite remove_user_table. simpl.
    destruct (table_after_add bits g u x nm s) as [->| ->];
      destruct (table_after_set bits g u x nm s) as [->| ->];
      rewrite ?lookup_insert_ne, lookup_delete_ne by done; done.
  - intros Hne. rewrite reset_all_lookup. simpl.
    destruct (s !! (g', u')) as [[nm' c]|]; simpl; [|done]. by rewrite decide_False.
Qed.

Lemma other_rows_untouched_witness :
  let s : Table := {[ (7, 42) := ("Bob", 3); (7, 43) := ("Eve", 5); (8, 42) := ("Bob", 9) ]} in
  (table_after (_add_count 63 7 42 2 "Rob" s) s !! (7, 43) = Some ("Eve", 5)
   ∧ table_after (_set_count 63 7 42 2 "Rob" s) s !! (7, 43) = Some ("Eve", 5)
   ∧ (_remove_user 7 42 s).2 !! (7, 43) = Some ("Eve", 5))
  ∧ (table_after (_add_count 63 7 42 2 "Rob" s) s !! (8, 42) = Some ("Bob", 9)
     ∧ table_after (_set_count 63 7 42 2 "Rob" s) s !! (8, 42) = Some ("Bob", 9)
     ∧ (_remove_user 7 42 s).2 !! (8, 42) = Some ("Bob", 9))
  ∧ (_reset_all 7 s).2 !! (8, 42) = Some ("Bob", 9).
Proof.
  intros s.
  assert (s !! (7, 43) = Some ("Eve", 5)) as E1 by reflexivity.
  assert (s !! (8, 42) = Some ("Bob", 9)) as E2 by reflexivity.
  rewrite <-E1 at 1 2 3. rewrite <-E2.
  split; [|split].
  - apply (other_rows_untouched 63 7 42 2 "Rob" s 7 43). congruence.
  - apply (other_rows_untouched 63 7 42 2 "Rob" s 8 42). congruence.
  - apply (other_rows_untouched 63 7 42 2 "Rob" s 8 42). lia.
Defined.

(** ** The role check and the commands *)

Lemma member_has_any_roles_iff (lower : string → string) (member : Member)
    (role_names : list string) :
  _member_has_any_roles lower member role_names = true ↔
  ∃ r nm, r ∈ member_roles member ∧ nm ∈ role_names ∧ lower (role_name r) = lower nm.
Proof.
  unfold _member_has_any_roles. rewrite negb_true_iff, bool_decide_eq_false. split.
  - intros Hnd. rewrite disjoint_intersection_L in Hnd.
    apply set_choose_L in Hnd as [x Hx].
    apply elem_of_intersection in Hx as [Hc Hw].
    apply elem_of_list_to_set, list_elem_of_fmap in Hc as [r [-> Hr]].
    apply elem_of_list_to_set, list_elem_of_fmap in Hw as [nm [Hnm Hin]].
    by exists r, nm.
  - intros (r & nm & Hr & Hnm & Heq) Hd.
    apply (proj1 (elem_of_disjoint _ _) Hd (lower nm)).
    + apply elem_of_list_to_set, list_elem_of_fmap. by exists r.
    + apply elem_of_list_to_set, list_elem_of_fmap. by exists nm.
Qed.

Lemma leaderboard_names (name : string) :
  name ∈ ["leaderboard"; "lb"; "top"] → name ≠ "add".
Proof.
  intros Hin ->. repeat (apply elem_of_cons in Hin as [Hin|Hin]; [discriminate|]).
  by apply elem_of_nil in Hin.
Qed.

Lemma invoke_leaderboard (bits : nat) (lower : string → string) (name : string) (args : list Arg)
    (ctx : Context) (s : Table) :
  name ∈ ["leaderboard"; "lb"; "top"] →
  invoke bits lower name args ctx s = Some (leaderboard_cmd ctx s).
Proof.
  intros Hin. unfold invoke.
  rewrite bool_decide_eq_false_2 by by apply leaderboard_names.
  by rewrite bool_decide_eq_true_2.
Qed.

(** C5, as stated, at an empty list of required roles: the check turns down
    a member who holds the Chef role, and so everyone. *)
Lemma empty_required_denies :
  let chef := mkMember 42 "alice" "Alice" [mkRole "Chef"; mkRole "@everyone"] in
  let ctx := mkContext (Some (mkGuild 7 [chef])) chef true in
  _member_has_any_roles ascii_lower chef [] = false
  ∧ has_any_named_roles ascii_lower [] ctx = Deny (NeedRole []).
Proof. vm_compute. done. Qed.

(** C5, amended.  [_member_has_any_roles] is true exactly when some role of
    the member and some required name are equal after lower-casing: one
    required role is enough.  For an empty list of required names it is
    false, for every member.  In a server, for a member, the check of
    [has_any_named_roles] passes exactly when it is true.  A command that
    needs no role carries no check: [leaderboard] and its aliases answer the
    same whoever the author is. *)
Theorem member_has_any_roles_spec (bits : nat) (lower : string → string) (member : Member)
    (role_names : list string) (name : string) (args : list Arg)
    (ctx ctx' : Context) (s : Table) :
  (_member_has_any_roles lower member role_names = true ↔
   ∃ r nm, r ∈ member_roles member ∧ nm ∈ role_names ∧ lower (role_name r) = lower nm)
  ∧ _member_has_any_roles lower member [] = false
  ∧ (is_Some (ctx_guild ctx) → author_is_member ctx = true →
     has_any_named_roles lower role_names ctx
     = if _member_has_any_roles lower (ctx_author ctx) role_names
       then Pass else Deny (NeedRole role_names))
  ∧ (name ∈ ["leaderboard"; "lb"; "top"] → ctx_guild ctx' = ctx_guild ctx →
     invoke bits lower name args ctx' s = invoke bits lower name args ctx s).
Proof.
  split; [apply member_has_any_roles_iff|]. split.
  { apply not_true_iff_false. rewrite member_has_any_roles_iff.
    intros (r & nm & _ & Hnm & _). by apply elem_of_nil in Hnm. }
  split.
  - intros [guild Hg] Hm. unfold has_any_named_roles. rewrite Hg, Hm. simpl.
    by destruct (_member_has_any_roles lower (ctx_author ctx) role_names).
  - intros Hin Hg. rewrite !invoke_leaderboard by done.
    unfold leaderboard_cmd. by rewrite Hg.
Qed.

Lemma member_has_any_roles_spec_witness :
  let chef := mkMember 42 "alice" "Alice" [mkRole "chef"; mkRole "@everyone"] in
  let guest := mkMember 43 "gus" "Gus" [mkRole "@everyone"] in
  let guild := mkGuild 7 [chef; guest] in
  let s : Table := {[ (7, 42) := ("Alice", 3) ]} in
  _member_has_any_roles ascii_lower chef ["Head Chef"; "Chef"] = true
  ∧ has_any_named_roles ascii_lower ["Chef"] (mkContext (Some guild) guest true)
    = Deny (NeedRole ["Chef"])
  ∧ invoke 63 ascii_lower "lb" [] (mkContext (Some guild) guest true) s
    = invoke 63 ascii_lower "lb" [] (mkContext (Some guild) chef true) s.
Proof.
  intros chef guest guild s.
  destruct (member_has_any_roles_spec 63 ascii_lower chef ["Head Chef"; "Chef"] "lb" []
              (mkContext (Some guild) chef true) (mkContext (Some guild) guest true) s)
    as (H1 & _ & _ & H4).
  destruct (member_has_any_roles_spec 63 ascii_lower chef ["Chef"] "lb" []
              (mkContext (Some guild) guest true) (mkContext (Some guild) chef true) s)
    as (_ & _ & H3 & _).
  split; [|split].
  - apply H1. exists (mkRole "chef"), "Chef".
    split; [apply list_elem_of_here|]. split; [|reflexivity].
    apply list_elem_of_further, list_elem_of_here.
  - rewrite H3; [reflexivity|by eexists|reflexivity].
  - apply H4; [|reflexivity]. apply list_elem_of_further, list_elem_of_here.
Defined.

(** C9, as stated, at [!lb 3] in a guild with four rows: the limit is not
    read, and the reply lists the four rows that [_top_n] returns for 10,
    where a limit of 3 returns three. *)
Lemma leaderboard_limit_not_read :
  let s : Table := {[ (7, 1) := ("Ann", 4); (7, 2) := ("Ben", 9);
                      (7, 3) := ("Cat", 4); (7, 4) := ("Dan", 1) ]} in
  let guild := mkGuild 7 [] in
  let ctx := mkContext (Some guild) (mkMember 1 "ann" "Ann" []) true in
  invoke 63 ascii_lower "lb" [ArgInt 3] ctx s
  = Some (LeaderboardEmbed [(Gold, "Ben", 9); (Silver, "Ann", 4);
                            (Bronze, "Cat", 4); (Place 4, "Dan", 1)], s)
  ∧ length (_top_n 7 3 s).1 = 3%nat.
Proof. vm_compute. done. Qed.

(** C9, amended.  The leaderboard command (aliases lb, top) binds no
    argument: whatever follows the name, it reads [_top_n] with limit 10 and
    replies with the lines of those rows, or that there is no data. *)
Theorem leaderboard_limit_is_ten (bits : nat) (lower : string → string) (name : string)
    (args : list Arg) (ctx : Context) (s : Table) :
  name ∈ ["leaderboard"; "lb"; "top"] →
  invoke bits lower name args ctx s = invoke bits lower name [] ctx s
  ∧ invoke bits lower name args ctx s
    = Some match ctx_guild ctx with
           | None => (ServerOnly, s)
           | Some guild =>
               (match (_top_n (gid guild) 10 s).1 with
                | [] => NoDataYet
                | rows => LeaderboardEmbed (leaderboard_lines guild rows)
                end, s)
           end.
Proof.
  intros Hin. rewrite !invoke_leaderboard by done. split; [done|].
  unfold leaderboard_cmd. destruct (ctx_guild ctx) as [guild|]; [|done].
  by destruct (_top_n (gid guild) 10 s).1.
Qed.

Lemma leaderboard_limit_is_ten_witness :
  let s : Table := {[ (7, 1) := ("Ann", 4); (7, 2) := ("Ben", 9) ]} in
  let ctx := mkContext (Some (mkGuild 7 [])) (mkMember 1 "ann" "Ann" []) true in
  invoke 63 ascii_lower "top" [ArgInt 1] ctx s = invoke 63 ascii_lower "top" [] ctx s.
Proof.
  intros s ctx. apply (leaderboard_limit_is_ten 63 ascii_lower "top" [ArgInt 1] ctx s).
  apply list_elem_of_further, list_elem_of_further, list_elem_of_here.
Defined.

(** ** Calls of [_add_count] that overlap *)

(** The UPDATE of a row that is still as it was read writes what the
    sequential helper writes. *)
Lemma update_row_unchanged (old new : Order) (s : Table) :
  s !! (guild_id old, user_id old) = Some (display_name old, count old) →
  (guild_id new, user_id new) = (guild_id old, user_id old) →
  update_row old new s = flush new s.
Proof.
  intros Hold Hkey. apply map_eq. intros k.
  unfold update_row. rewrite lookup_alter, lookup_flush, Hkey, Hold. simpl.
  repeat case_decide; congruence.
Qed.

(** The three steps of one call, with no step of another call between them,
    are the helper. *)
Lemma add_step_thrice (bits : nat) (g u delta : Z) (nm : string) (s : Table) :
  let r1 := add_step bits g u delta nm Started s in
  let r2 := add_step bits g u delta nm r1.1 r1.2 in
  add_step bits g u delta nm r2.1 r2.2
  = (call_outcome bits g u delta nm s, table_after (_add_count bits g u delta nm s) s).
Proof.
  cbv zeta. unfold call_outcome, _add_count. rewrite commit_reload.
  cbn [add_step fst snd]. unfold select_one.
  destruct (s !! (g, u)) as [[nm0 c0]|] eqn:E; cbn [fmap option_fmap option_map].
  - set (row := refresh_name
                  (with_count (find_or_create g u nm (Some (row_of (g, u) (nm0, c0))))
                     (Z.max 0 (or0 (count (find_or_create g u nm
                                             (Some (row_of (g, u) (nm0, c0))))) + delta)))
                  nm).
    assert ((guild_id row, user_id row) = (g, u)) as Hkey.
    { unfold row. by rewrite refresh_name_key. }
    destruct (fits bits (count row)) eqn:F; cbn [add_step fst snd table_after from_option];
      [|done].
    unfold reload_count. rewrite Hkey.
    rewrite update_row_unchanged by (simpl; done).
    unfold flush. by rewrite Hkey, lookup_insert_eq.
  - set (row := refresh_name
                  (with_count (find_or_create g u nm None)
                     (Z.max 0 (or0 (count (find_or_create g u nm None)) + delta))) nm).
    assert ((guild_id row, user_id row) = (g, u)) as Hkey.
    { unfold row. by rewrite refresh_name_key. }
    unfold commit.
    destruct (fits bits (count row)) eqn:F; cbn [add_step fst snd table_after from_option];
      [|done].
    unfold reload_count, flush. by rewrite Hkey, lookup_insert_eq.
Qed.

Lemma sched_step_thrice (bits : nat) (g u delta : Z) (nm : string) (i : nat)
    (pool : list Phase) (s : Table) :
  pool !! i = Some Started →
  sched_step bits g u delta nm i
    (sched_step bits g u delta nm i (sched_step bits g u delta nm i (pool, s)))
  = (<[i := call_outcome bits g u delta nm s]> pool,
     table_after (_add_count bits g u delta nm s) s).
Proof.
  intros Hi. pose proof (lookup_lt_Some _ _ _ Hi) as Hlt.
  pose proof (add_step_thrice bits g u delta nm s) as H3. cbv zeta in H3.
  unfold sched_step at 3. cbn [fst snd]. rewrite Hi.
  unfold sched_step at 2. cbn [fst snd].
  rewrite list_lookup_insert_eq by done.
  unfold sched_step. cbn [fst snd].
  rewrite list_lookup_insert_eq by (by rewrite length_insert).
  rewrite H3. by rewrite !list_insert_insert_eq.
Qed.

Lemma run_serial_from (bits : nat) (g u : Z) (nm : string) (k j : nat)
    (pool : list Phase) (s : Table) :
  (∀ i, (j ≤ i < j + k)%nat → pool !! i = Some Started) →
  (run_schedule bits g u 1 nm (i ← seq j k; [i; i; i]) (pool, s)).2 = add_n bits k g u nm s.
Proof.
  revert j pool s. induction k as [|k IH]; intros j pool s Hpool; [done|].
  unfold add_n. rewrite Nat.iter_succ_r.
  fold (add_n bits k g u nm (table_after (_add_count bits g u 1 nm s) s)).
  unfold run_schedule. cbn [seq mbind list_bind app foldl].
  rewrite sched_step_thrice by (apply Hpool; lia).
  apply IH. intros i Hi. rewrite list_lookup_insert_ne by lia. apply Hpool. lia.
Qed.

(** One call that starts from a count of at least 0 and stays within the
    column commits and adds one. *)
Lemma add_one_commits (bits : nat) (g u : Z) (nm : string) (s : Table) :
  0 ≤ count_before g u s → count_before g u s + 1 ≤ int_max bits →
  _add_count bits g u 1 nm s
  = Some (count_before g u s + 1,
          <[(g, u) := (name_after g u nm s, count_before g u s + 1)]> s).
Proof.
  intros H0 H1. rewrite add_count_table.
  rewrite Z.max_r by lia. by rewrite bool_decide_eq_true_2.
Qed.

Lemma count_before_add_n (bits n : nat) (g u : Z) (nm : string) (s : Table) :
  0 ≤ count_before g u s →
  count_before g u s + Z.of_nat n ≤ int_max bits →
  count_before g u (add_n bits n g u nm s) = count_before g u s + Z.of_nat n.
Proof.
  intros Hc. induction n as [|n IH]; intros Hn; [simpl; lia|].
  unfold add_n in *. rewrite Nat.iter_succ.
  rewrite add_one_commits by lia. cbn [table_after from_option snd].
  unfold count_before at 1. rewrite lookup_insert_eq. cbn [from_option snd]. lia.
Qed.

Lemma stored_count_add_n (bits n : nat) (g u : Z) (nm : string) (s : Table) :
  0 ≤ count_before g u s →
  count_before g u s + Z.of_nat (S n) ≤ int_max bits →
  stored_count g u (add_n bits (S n) g u nm s) = Some (count_before g u s + Z.of_nat (S n)).
Proof.
  intros Hc Hn. pose proof (count_before_add_n bits n g u nm s Hc ltac:(lia)) as Hcb.
  unfold add_n in *. rewrite Nat.iter_succ.
  rewrite add_one_commits by lia. cbn [table_after from_option snd].
  unfold stored_count. rewrite lookup_insert_eq. cbn [fmap option_fmap option_map snd].
  f_equal. lia.
Qed.

(** What the calls of a serial schedule return: each one the count it found
    plus one. *)
Lemma run_serial_returns (bits : nat) (g u : Z) (nm : string) (k j : nat)
    (pool : list Phase) (s : Table) (i : nat) :
  (∀ i, (j ≤ i < j + k)%nat → pool !! i = Some Started) →
  0 ≤ count_before g u s →
  count_before g u s + Z.of_nat k ≤ int_max bits →
  (run_schedule bits g u 1 nm (i ← seq j k; [i; i; i]) (pool, s)).1 !! i
  = if decide (j ≤ i < j + k)%nat
    then Some (Returned (count_before g u s + Z.of_nat (i - j) + 1))
    else pool !! i.
Proof.
  revert j pool s. induction k as [|k IH]; intros j pool s Hpool Hc Hk.
  { simpl. by rewrite decide_False by lia. }
  unfold run_schedule. cbn [seq mbind list_bind app foldl].
  rewrite sched_step_thrice by (apply Hpool; lia).
  pose proof (lookup_lt_Some _ _ _ (Hpool j ltac:(lia))) as Hlt.
  unfold call_outcome. rewrite add_one_commits by lia. cbn [table_after from_option fst snd].
  specialize (IH (S j) (<[j:=Returned (count_before g u s + 1)]> pool)
                (<[(g, u) := (name_after g u nm s, count_before g u s + 1)]> s)).
  unfold run_schedule in IH. rewrite IH; clear IH.
  - unfold count_before at 1. rewrite lookup_insert_eq. cbn [from_option snd].
    destruct (decide (i = j)) as [->|Hne].
    + rewrite decide_False, decide_True by lia.
      rewrite list_lookup_insert_eq by done. do 2 f_equal. lia.
    + rewrite list_lookup_insert_ne by done.
      destruct (decide (S j ≤ i < S j + k)%nat).
      * rewrite decide_True by lia. do 2 f_equal. lia.
      * by rewrite decide_False by lia.
  - intros i' Hi'. rewrite list_lookup_insert_ne by lia. apply Hpool. lia.
  - unfold count_before at 1. rewrite lookup_insert_eq. cbn [from_option snd]. lia.
  - unfold count_before at 1. rewrite lookup_insert_eq. cbn [from_option snd]. lia.
Qed.

(** C8, as stated, at two increments of a row with count 0 whose SELECTs both
    run before either commit: both calls return 1 and the stored count is 1.
    From an empty table the second INSERT is refused and the count is 1 as
    well. *)
Lemma overlapping_increments_lose_one :
  let s : Table := {[ (7, 42) := ("Bob", 0) ]} in
  let r := run_schedule 63 7 42 1 "Bob" [0; 1; 0; 1; 0; 1]%nat (replicate 2 Started, s) in
  let r0 := run_schedule 63 7 42 1 "Bob" [0; 1; 0; 1; 0; 1]%nat (replicate 2 Started, ∅) in
  [0; 1; 0; 1; 0; 1]%nat ≡ₚ serial 2
  ∧ r.1 = [Returned 1; Returned 1] ∧ stored_count 7 42 r.2 = Some 1
  ∧ r0.1 = [Returned 1; Raised] ∧ stored_count 7 42 r0.2 = Some 1.
Proof.
  split.
  - change (serial 2) with [0; 0; 0; 1; 1; 1]%nat.
    apply perm_skip. etrans; [apply perm_swap|]. apply perm_skip.
    etrans; [apply perm_skip, perm_swap|]. etrans; [apply perm_swap|]. done.
  - vm_compute. done.
Qed.

(** C8, amended.  When the [N] calls of [_add_count g u 1 nm] run one after
    the other, each with its SELECT, its commit and its reload back to back,
    the table is the one [N] sequential calls leave, call number [i] returns
    [i + 1], and from no row or a count of 0 the stored count is exactly [N],
    as long as [N] fits the INTEGER column.  The helper takes no lock and
    issues no atomic UPDATE, so this is a property of such schedules only. *)
Theorem serial_increments_count (bits N : nat) (g u : Z) (nm : string) (s : Table) :
  (0 < N)%nat →
  Z.of_nat N ≤ int_max bits →
  count_before g u s = 0 →
  let r := run_schedule bits g u 1 nm (serial N) (replicate N Started, s) in
  r.2 = add_n bits N g u nm s
  ∧ stored_count g u r.2 = Some (Z.of_nat N)
  ∧ ∀ i, (i < N)%nat → r.1 !! i = Some (Returned (Z.of_nat i + 1)).
Proof.
  intros HN Hfit Hc. cbv zeta. unfold serial.
  assert (∀ i, (0 ≤ i < 0 + N)%nat → replicate N Started !! i = Some Started) as Hpool.
  { intros i Hi. apply lookup_replicate_2. lia. }
  rewrite run_serial_from by done.
  split; [done|]. split.
  - destruct N as [|n]; [lia|]. rewrite stored_count_add_n by lia. f_equal. lia.
  - intros i Hi. rewrite run_serial_returns by (done || lia).
    rewrite decide_True by lia. do 2 f_equal. lia.
Qed.

Lemma serial_increments_count_witness :
  stored_count 7 42
    (run_schedule 63 7 42 1 "Bob" (serial 3) (replicate 3 Started, ∅)).2 = Some 3.
Proof.
  apply (serial_increments_count 63 3 7 42 "Bob" ∅);
    [apply Nat.lt_0_succ|vm_compute; discriminate|reflexivity].
Defined.

(** ** The database URL *)

Lemma startswith_app (p r : string) : startswith (p +:+ r) p = true.
Proof. induction p as [|a p IH]; simpl; [done|]. by rewrite Ascii.eqb_refl. Qed.

Lemma replace_first_prefix (s old new : string) :
  startswith s old = true →
  replace_first s old new = new +:+ string_drop (String.length old) s.
Proof. intros H. destruct s; simpl; by rewrite H. Qed.

Lemma string_drop_app (p r : string) : string_drop (String.length p) (p +:+ r) = r.
Proof. induction p as [|a p IH]; simpl; [by destruct r|done]. Qed.

(** X1.  Whatever the environment holds, the URL the engine is created with
    is not empty, does not start with [postgres://], starts with
    [postgresql://] only when it names the psycopg2 driver, and is a fixed
    point: feeding it back as the environment value gives the same URL. *)
Theorem database_url_normal (env : option string) :
  let r := database_url env in
  truthy r = true
  ∧ startswith r "postgres://" = false
  ∧ startswith r "postgresql://" && negb (contains r "+psycopg2") = false
  ∧ database_url (Some r) = r.
Proof.
  cbv zeta.
  assert ((∃ x, database_url env = "postgresql+psycopg2://" +:+ x)
          ∨ (truthy (database_url env) = true
             ∧ startswith (database_url env) "postgres://" = false
             ∧ startswith (database_url env) "postgresql://"
               && negb (contains (database_url env) "+psycopg2") = false)) as [[x ->]|(H0 & H1 & H2)].
  { unfold database_url.
    set (url := match env with
                | Some u => if truthy u then u else "sqlite:///leaderboard.db"
                | None => "sqlite:///leaderboard.db"
                end).
    assert (truthy url = true) as Hurl.
    { unfold url. destruct env as [u|]; [|done]. by destruct (truthy u) eqn:E. }
    destruct (startswith url "postgres://") eqn:E1.
    { left. rewrite replace_first_prefix by done. eauto. }
    destruct (startswith url "postgresql://" && negb (contains url "+psycopg2")) eqn:E2.
    { left. apply andb_true_iff in E2 as [E2 _]. rewrite replace_first_prefix by done. eauto. }
    by right. }
  - done.
  - split; [done|]. split; [done|]. split; [done|].
    revert H0 H1 H2. generalize (database_url env). intros r H0 H1 H2.
    unfold database_url. by rewrite H0, H1, H2.
Qed.

(** X2.  With the variable unset or empty the URL is the local SQLite file.
    A URL [postgres://rest] becomes [postgresql+psycopg2://rest], and so does
    [postgresql://rest] unless [+psycopg2] occurs somewhere in it; every
    other non-empty URL is used as it is. *)
Theorem database_url_cases (u rest : string) :
  database_url None = "sqlite:///leaderboard.db"
  ∧ database_url (Some EmptyString) = "sqlite:///leaderboard.db"
  ∧ database_url (Some ("postgres://" +:+ rest)) = "postgresql+psycopg2://" +:+ rest
  ∧ (contains ("postgresql://" +:+ rest) "+psycopg2" = false →
     database_url (Some ("postgresql://" +:+ rest)) = "postgresql+psycopg2://" +:+ rest)
  ∧ (truthy u = true → startswith u "postgres://" = false →
     startswith u "postgresql://" && negb (contains u "+psycopg2") = false →
     database_url (Some u) = u).
Proof.
  split; [done|]. split; [done|]. split; [|split].
  - unfold database_url.
    replace (truthy ("postgres://" +:+ rest)) with true by done.
    rewrite (startswith_app "postgres://" rest).
    rewrite replace_first_prefix by apply (startswith_app "postgres://").
    by rewrite (string_drop_app "postgres://" rest).
  - intros Hc. unfold database_url.
    replace (truthy ("postgresql://" +:+ rest)) with true by done.
    replace (startswith ("postgresql://" +:+ rest) "postgres://") with false by done.
    rewrite (startswith_app "postgresql://" rest), Hc. cbn [andb negb].
    rewrite replace_first_prefix by apply (startswith_app "postgresql://").
    by rewrite (string_drop_app "postgresql://" rest).
  - intros Hu H1 H2. unfold database_url. by rewrite Hu, H1, H2.
Qed.

Lemma database_url_cases_witness :
  database_url (Some "postgresql://u:p@h/db") = "postgresql+psycopg2://u:p@h/db"
  ∧ database_url (Some "postgresql://u:+psycopg2@h/db") = "postgresql://u:+psycopg2@h/db".
Proof.
  destruct (database_url_cases "postgresql://u:+psycopg2@h/db" "u:p@h/db")
    as (_ & _ & _ & H4 & H5).
  split; [apply H4; reflexivity|apply H5; reflexivity].
Defined.

(** ** More on [_top_n] and [_reset_all] *)

Lemma guild_size_dom (g : Z) (s s' : Table) : dom s = dom s' → guild_size g s = guild_size g s'.
Proof.
  intros Hd. unfold guild_size.
  rewrite <-!(size_dom (D := gset (Z * Z))). f_equal.
  apply dom_filter_L. intros k.
  rewrite elem_of_dom. unfold is_Some. setoid_rewrite map_lookup_filter_Some. simpl.
  split.
  - intros [x [Hx Hg]].
    assert (is_Some (s !! k)) as [x' Hx'].
    { apply elem_of_dom. rewrite Hd. apply elem_of_dom. eauto. }
    eauto.
  - intros [x [Hx Hg]].
    assert (is_Some (s' !! k)) as [x' Hx'].
    { apply elem_of_dom. rewrite <-Hd. apply elem_of_dom. eauto. }
    eauto.
Qed.

Lemma dom_reset_all (g : Z) (s : Table) : dom (_reset_all g s).2 = dom s.
Proof.
  apply set_eq. intros k. by rewrite !elem_of_dom, reset_all_lookup, fmap_is_Some.
Qed.

(** X3.  No member is listed twice by [_top_n], and when the limit is at
    least the number of rows of the guild, every stored row of the guild is
    listed. *)
Theorem top_n_lists_each_once (g : Z) (n : nat) (s : Table) (u : Z) (v : string * Z) :
  NoDup (user_id <$> (_top_n g n s).1)
  ∧ ((guild_size g s ≤ n)%nat → s !! (g, u) = Some v → row_of (g, u) v ∈ (_top_n g n s).1).
Proof.
  unfold _top_n. cbn [fst]. split.
  - eapply sublist_NoDup; [|apply fmap_sublist, sublist_take].
    rewrite merge_sort_Permutation. apply NoDup_select_guild_users.
  - intros Hn Hl. rewrite take_ge.
    + by apply stored_row_in_sorted.
    + by rewrite merge_sort_Permutation, select_guild_length.
Qed.

Lemma top_n_lists_each_once_witness :
  let s : Table := {[ (7, 1) := ("Ann", 4); (7, 2) := ("Ben", 9); (8, 1) := ("Ann", 2) ]} in
  mkOrder 7 1 "Ann" 4 ∈ (_top_n 7 2 s).1.
Proof.
  intros s. apply (top_n_lists_each_once 7 2 s 1 ("Ann", 4)).
  - vm_compute. lia.
  - reflexivity.
Defined.

(** X4.  A stored row of the guild that [_top_n] leaves out ranks after every
    row it lists: its count is smaller, or equal with a larger user id. *)
Theorem top_n_keeps_best (g : Z) (n : nat) (s : Table) (u : Z) (v : string * Z) (r : Order) :
  s !! (g, u) = Some v →
  row_of (g, u) v ∉ (_top_n g n s).1 →
  r ∈ (_top_n g n s).1 →
  ranked_before r (row_of (g, u) v).
Proof. apply top_n_left_out. Qed.

Lemma top_n_keeps_best_witness :
  let s : Table := {[ (7, 1) := ("Ann", 4); (7, 2) := ("Ben", 9); (7, 3) := ("Cat", 4) ]} in
  ranked_before (mkOrder 7 1 "Ann" 4) (mkOrder 7 3 "Cat" 4).
Proof.
  intros s. apply (top_n_keeps_best 7 2 s 3 ("Cat", 4) (mkOrder 7 1 "Ann" 4)).
  - reflexivity.
  - vm_compute. intros Hin.
    repeat (apply elem_of_cons in Hin as [Hin|Hin]; [discriminate|]).
    by apply elem_of_nil in Hin.
  - vm_compute. apply list_elem_of_further, list_elem_of_here.
Defined.

(** X5.  [_reset_all] is idempotent: a second call returns the same number
    and leaves the table as the first one left it. *)
Theorem reset_all_idempotent (g : Z) (s : Table) :
  _reset_all g (_reset_all g s).2 = _reset_all g s.
Proof.
  apply injective_projections.
  - rewrite !reset_all_count. f_equal. apply guild_size_dom, dom_reset_all.
  - apply map_eq. intros k. rewrite !reset_all_lookup.
    destruct (s !! k) as [[nm c]|]; simpl; [|done]. by case_decide.
Qed.

Lemma top_n_reset_zero (g : Z) (n : nat) (s : Table) :
  Forall (λ r, count r = 0) (_top_n g n (_reset_all g s).2).1.
Proof.
  apply Forall_forall. intros r Hr. apply elem_of_top_n in Hr as [_ Hr].
  rewrite reset_all_lookup in Hr. simpl in Hr.
  destruct (s !! (g, user_id r)) as [[nm c]|]; simpl in Hr; [|done].
  rewrite decide_True in Hr by done. congruence.
Qed.

(** X6.  Right after [_reset_all g], [_top_n g n] lists the smaller of [n]
    and the number of rows of the guild, every one with count 0, in
    ascending order of user id. *)
Theorem top_n_after_reset (g : Z) (n : nat) (s : Table) :
  let rows := (_top_n g n (_reset_all g s).2).1 in
  Forall (λ r, count r = 0) rows
  ∧ StronglySorted (λ a b, user_id a < user_id b) rows
  ∧ length rows = (n `min` guild_size g s)%nat.
Proof.
  cbv zeta.
  pose proof (top_n_reset_zero g n s) as Hz.
  split; [done|]. split.
  - pose proof (StronglySorted_take ranked_before _ n (sorted_guild_ranked g (_reset_all g s).2))
      as Hs.
    unfold _top_n in *. cbn [fst] in *.
    induction Hs as [|a l Hs IH Ha]; [constructor|].
    apply Forall_cons in Hz as [Hza Hzl].
    constructor; [by apply IH|].
    rewrite Forall_forall in Ha, Hzl. apply Forall_forall. intros b Hb.
    specialize (Ha b Hb). specialize (Hzl b Hb). unfold ranked_before in Ha. lia.
  - rewrite top_n_length. f_equal. apply guild_size_dom, dom_reset_all.
Qed.

(** ** How the helpers compose *)

Lemma count_before_insert (g u : Z) (nm : string) (c : Z) (s : Table) :
  count_before g u (<[(g, u) := (nm, c)]> s) = c.
Proof. unfold count_before. by rewrite lookup_insert_eq. Qed.

Lemma name_after_insert (g u : Z) (nm nm0 : string) (c : Z) (s : Table) :
  name_after g u nm (<[(g, u) := (nm0, c)]> s) = if truthy nm then nm else nm0.
Proof. unfold name_after. by rewrite lookup_insert_eq. Qed.

Lemma name_after_again (g u : Z) (nm : string) (s : Table) :
  (if truthy nm then nm else name_after g u nm s) = name_after g u nm s.
Proof. unfold name_after. destruct (s !! (g, u)); by destruct (truthy nm). Qed.

(** X7.  After a [_set_count] to [v] that fits the column, an [_add_count]
    of [d] on the same pair aims at [max 0 (max 0 v + d)], whatever was stored
    before the set: when that fits the column it is returned and stored, and
    when it does not the add raises and the stored count stays [max 0 v]. *)
Theorem add_after_set (bits : nat) (g u v d : Z) (nm1 nm2 : string) (s : Table) :
  Z.max 0 v ≤ int_max bits →
  let s1 := table_after (_set_count bits g u v nm1 s) s in
  let c := Z.max 0 (Z.max 0 v + d) in
  _add_count bits g u d nm2 s1
  = (if bool_decide (c ≤ int_max bits)
     then Some (c, <[(g, u) := (if truthy nm2 then nm2 else name_after g u nm1 s, c)]> s)
     else None)
  ∧ stored_count g u (table_after (_add_count bits g u d nm2 s1) s1)
    = Some (if bool_decide (c ≤ int_max bits) then c else Z.max 0 v).
Proof.
  intros Hv. cbv zeta. rewrite set_count_table, bool_decide_eq_true_2 by done.
  cbn [table_after from_option snd]. rewrite add_count_table, count_before_insert,
    name_after_insert, insert_insert_eq.
  split; [done|]. unfold stored_count.
  case_bool_decide; cbn [table_after from_option snd]; by rewrite lookup_insert_eq.
Qed.

Lemma add_after_set_witness :
  let s : Table := {[ (7, 42) := ("Bob", 3) ]} in
  _add_count 31 7 42 (-4) "Rob" (table_after (_set_count 31 7 42 10 "Bobby" s) s)
  = Some (6, <[(7, 42) := ("Rob", 6)]> s)
  ∧ _add_count 31 7 42 1 "Rob" (table_after (_set_count 31 7 42 2147483647 "Bobby" s) s)
    = None.
Proof.
  intros s.
  destruct (add_after_set 31 7 42 10 (-4) "Bobby" "Rob" s) as [H1 _];
    [vm_compute; discriminate|].
  destruct (add_after_set 31 7 42 2147483647 1 "Bobby" "Rob" s) as [H2 _];
    [vm_compute; discriminate|].
  split; [rewrite H1|rewrite H2]; reflexivity.
Defined.

(** X8.  [_remove_user] forgets the row: an [_add_count] that follows starts
    again from 0, so it aims at [max 0 d]; when that fits the column it is
    returned and stored under the name the call is given, even an empty one,
    and when it does not the call raises. *)
Theorem add_after_remove (bits : nat) (g u d : Z) (nm : string) (s : Table) :
  _add_count bits g u d nm (_remove_user g u s).2
  = if bool_decide (Z.max 0 d ≤ int_max bits)
    then Some (Z.max 0 d, <[(g, u) := (nm, Z.max 0 d)]> s)
    else None.
Proof.
  rewrite remove_user_table, add_count_table. cbn [fst snd].
  unfold count_before, name_after. rewrite lookup_delete_eq. cbn [from_option].
  by rewrite insert_delete_eq.
Qed.

(** X9.  The last [_set_count] wins: after an [_add_count] or a [_set_count]
    on the same pair with the same name, committed or not, it returns what it
    would have returned without them, and when it commits it leaves the
    table it would have left without them; it raises after them exactly when
    it raises without them.  In particular a [_set_count] that commits is
    idempotent. *)
Theorem set_count_overrides (bits : nat) (g u v x : Z) (nm : string) (s : Table) :
  _set_count bits g u v nm (table_after (_add_count bits g u x nm s) s)
  = _set_count bits g u v nm s
  ∧ _set_count bits g u v nm (table_after (_set_count bits g u x nm s) s)
    = _set_count bits g u v nm s.
Proof.
  split.
  - destruct (table_after_add bits g u x nm s) as [->| ->]; [done|].
    rewrite !set_count_table. by rewrite name_after_insert, insert_insert_eq, name_after_again.
  - destruct (table_after_set bits g u x nm s) as [->| ->]; [done|].
    rewrite !set_count_table. by rewrite name_after_insert, insert_insert_eq, name_after_again.
Qed.

(** ** The commands *)

Lemma invoke_add (bits : nat) (lower : string → string) (args : list Arg) (ctx : Context) (s : Table) :
  invoke bits lower "add" args ctx s
  = Some (guarded (has_any_named_roles lower ["Chef"]) ctx (add_cmd bits ctx) s).
Proof. reflexivity. Qed.

Lemma invoke_staff (bits : nat) (lower : string → string) (name : string) (args : list Arg)
    (ctx : Context) (s : Table) :
  name ∈ ["remove"; "set"; "resetall"] →
  ∃ callback,
    invoke bits lower name args ctx s
    = Some (guarded (has_any_named_roles lower ["Head Chef"; "Owner"]) ctx callback s)
    ∧ callback ∈ [remove_cmd ctx (bind_member args).1;
                  set_cmd bits ctx (bind_member args).1 (bind_int (bind_member args).2).1;
                  resetall_cmd ctx].
Proof.
  intros Hin. repeat (apply elem_of_cons in Hin as [->|Hin]).
  - eexists. split; [reflexivity|]. apply list_elem_of_here.
  - eexists. split; [reflexivity|]. apply list_elem_of_further, list_elem_of_here.
  - eexists. split; [reflexivity|].
    apply list_elem_of_further, list_elem_of_further, list_elem_of_here.
  - by apply elem_of_nil in Hin.
Qed.

(** The names [invoke] knows. *)
Lemma invoke_names (bits : nat) (lower : string → string) (name : string) (args : list Arg)
    (ctx : Context) (s : Table) :
  is_Some (invoke bits lower name args ctx s) →
  name = "add" ∨ name ∈ ["leaderboard"; "lb"; "top"] ∨ name ∈ ["remove"; "set"; "resetall"].
Proof.
  unfold invoke. intros Hs.
  repeat (case_bool_decide; [subst; eauto 6 using list_elem_of_here, list_elem_of_further|]).
  by destruct Hs.
Qed.

Lemma guarded_deny (chk : Context → Verdict) (ctx : Context)
    (callback : Table → Reply * Table) (s : Table) (d : Reply) :
  chk ctx = Deny d → guarded chk ctx callback s = (d, s).
Proof. intros H. unfold guarded. by rewrite H. Qed.

Lemma guarded_pass (chk : Context → Verdict) (ctx : Context)
    (callback : Table → Reply * Table) (s : Table) :
  chk ctx = Pass → guarded chk ctx callback s = callback s.
Proof. intros H. unfold guarded. by rewrite H. Qed.

(** X10.  Outside a server every command answers that it can only be used in
    a server, and writes nothing. *)
Theorem no_guild_no_write (bits : nat) (lower : string → string) (name : string) (args : list Arg)
    (ctx : Context) (s : Table) (r : Reply * Table) :
  ctx_guild ctx = None →
  invoke bits lower name args ctx s = Some r →
  r = (ServerOnly, s).
Proof.
  intros Hg Hr.
  assert (∀ names, has_any_named_roles lower names ctx = Deny ServerOnly) as Hdeny.
  { intros names. unfold has_any_named_roles. by rewrite Hg. }
  assert (is_Some (invoke bits lower name args ctx s)) as Hsome by eauto.
  destruct (invoke_names bits lower name args ctx s Hsome) as [->|[Hn|Hn]].
  - rewrite invoke_add, (guarded_deny _ _ _ _ ServerOnly) in Hr by done. congruence.
  - rewrite invoke_leaderboard in Hr by done. unfold leaderboard_cmd in Hr.
    rewrite Hg in Hr. congruence.
  - destruct (invoke_staff bits lower name args ctx s Hn) as (cb & Hcb & _).
    rewrite Hcb, (guarded_deny _ _ _ _ ServerOnly) in Hr by done. congruence.
Qed.

Lemma no_guild_no_write_witness :
  let s : Table := {[ (7, 42) := ("Bob", 3) ]} in
  let owner := mkMember 1 "own" "Owner" [mkRole "Owner"] in
  let ctx := mkContext None owner false in
  invoke 63 ascii_lower "resetall" [] ctx s = Some (ServerOnly, s).
Proof.
  intros s owner ctx.
  destruct (invoke 63 ascii_lower "resetall" [] ctx s) as [r|] eqn:E; [|discriminate E].
  f_equal. by apply (no_guild_no_write 63 ascii_lower "resetall" [] ctx s r).
Defined.

(** X11.  In a server, a member who holds none of the roles a command asks
    for gets the list of those roles as the reply and the table is left as it
    is: Chef for add; Head Chef or Owner for remove, set and resetall. *)
Theorem missing_role_no_write (bits : nat) (lower : string → string) (name : string) (args : list Arg)
    (ctx : Context) (s : Table) :
  is_Some (ctx_guild ctx) →
  author_is_member ctx = true →
  (_member_has_any_roles lower (ctx_author ctx) ["Chef"] = false →
   invoke bits lower "add" args ctx s = Some (NeedRole ["Chef"], s))
  ∧ (_member_has_any_roles lower (ctx_author ctx) ["Head Chef"; "Owner"] = false →
     name ∈ ["remove"; "set"; "resetall"] →
     invoke bits lower name args ctx s = Some (NeedRole ["Head Chef"; "Owner"], s)).
Proof.
  intros [guild Hg] Hm.
  assert (∀ names, _member_has_any_roles lower (ctx_author ctx) names = false →
                   has_any_named_roles lower names ctx = Deny (NeedRole names)) as Hdeny.
  { intros names Hno. unfold has_any_named_roles. by rewrite Hg, Hm, Hno. }
  split.
  - intros Hno. rewrite invoke_add. f_equal. by apply guarded_deny, Hdeny.
  - intros Hno Hn. destruct (invoke_staff bits lower name args ctx s Hn) as (cb & -> & _).
    f_equal. by apply guarded_deny, Hdeny.
Qed.

Lemma missing_role_no_write_witness :
  let s : Table := {[ (7, 42) := ("Bob", 3) ]} in
  let guest := mkMember 43 "gus" "Gus" [mkRole "Sous Chef"; mkRole "@everyone"] in
  let ctx := mkContext (Some (mkGuild 7 [guest])) guest true in
  invoke 63 ascii_lower "add" [] ctx s = Some (NeedRole ["Chef"], s)
  ∧ invoke 63 ascii_lower "set" [ArgMember guest; ArgInt 99] ctx s
    = Some (NeedRole ["Head Chef"; "Owner"], s).
Proof.
  intros s guest ctx.
  destruct (missing_role_no_write 63 ascii_lower "set" [] ctx s) as [H1 _];
    [by eexists|reflexivity|].
  destruct (missing_role_no_write 63 ascii_lower "set" [ArgMember guest; ArgInt 99] ctx s)
    as [_ H2]; [by eexists|reflexivity|].
  split.
  - apply H1. reflexivity.
  - apply H2; [reflexivity|]. apply list_elem_of_further, list_elem_of_here.
Defined.

Lemma add_cmd_in_guild (bits : nat) (ctx : Context) (guild : Guild) (s : Table) :
  ctx_guild ctx = Some guild →
  (add_cmd bits ctx s).2
  = table_after (_add_count bits (gid guild) (member_id (ctx_author ctx)) 1
                   (member_display_name (ctx_author ctx)) s) s.
Proof.
  intros Hg. unfold add_cmd. rewrite Hg. cbn [name_for].
  by destruct (_add_count bits (gid guild) (member_id (ctx_author ctx)) 1
                 (member_display_name (ctx_author ctx)) s).
Qed.

(** X12.  A member with the Chef role who has no row, or a count of 0, and
    sends [!add] [n] times in a server, each message handled to its end
    before the next one is, ends with a stored count of exactly [n], as long
    as [n] fits the INTEGER column; what follows the command name is not
    read. *)
Theorem repeated_add_counts (bits : nat) (lower : string → string) (args : list Arg)
    (ctx : Context) (guild : Guild) (n : nat) (s : Table) :
  ctx_guild ctx = Some guild →
  has_any_named_roles lower ["Chef"] ctx = Pass →
  count_before (gid guild) (member_id (ctx_author ctx)) s = 0 →
  (0 < n)%nat →
  Z.of_nat n ≤ int_max bits →
  stored_count (gid guild) (member_id (ctx_author ctx))
    (run_invocations bits lower (replicate n (mkInvocation "add" args ctx)) s)
  = Some (Z.of_nat n).
Proof.
  intros Hg Hpass Hc Hn Hfit.
  assert (∀ k t, run_invocations bits lower (replicate k (mkInvocation "add" args ctx)) t
                 = add_n bits k (gid guild) (member_id (ctx_author ctx))
                     (member_display_name (ctx_author ctx)) t) as Hrun.
  { induction k as [|k IH]; intros t; [done|].
    change (run_invocations bits lower (replicate (S k) (mkInvocation "add" args ctx)) t)
      with (run_invocations bits lower (replicate k (mkInvocation "add" args ctx))
              (after_invocation bits lower t (mkInvocation "add" args ctx))).
    rewrite IH. unfold add_n. rewrite Nat.iter_succ_r. f_equal.
    unfold after_invocation. cbn [inv_name inv_args inv_ctx].
    rewrite invoke_add, guarded_pass by done.
    by rewrite (add_cmd_in_guild bits ctx guild). }
  rewrite Hrun. destruct n as [|n]; [lia|].
  rewrite stored_count_add_n by lia. f_equal. lia.
Qed.

Lemma repeated_add_counts_witness :
  let chef := mkMember 42 "alice" "Alice" [mkRole "CHEF"] in
  let guild := mkGuild 7 [chef] in
  let ctx := mkContext (Some guild) chef true in
  stored_count 7 42
    (run_invocations 63 ascii_lower (replicate 3 (mkInvocation "add" [ArgInt 5] ctx)) ∅)
  = Some 3.
Proof.
  intros chef guild ctx.
  apply (repeated_add_counts 63 ascii_lower [ArgInt 5] ctx guild 3 ∅);
    [reflexivity|reflexivity|reflexivity|apply Nat.lt_0_succ|vm_compute; discriminate].
Defined.

(** X13.  In a server, [remove_cmd] with a target deletes the target's row in
    that server and nothing else; it answers that the user was not on the
    leaderboard exactly when there was no such row, and with the target's
    display name otherwise.  Without a target it answers with the usage line
    and writes nothing. *)
Theorem remove_cmd_reply (ctx : Context) (guild : Guild) (usr : Member) (s : Table) :
  ctx_guild ctx = Some guild →
  let r := remove_cmd ctx (Some usr) s in
  r.1 = (if decide (is_Some (s !! (gid guild, member_id usr)))
         then Removed (member_display_name usr) else NotOnLeaderboard)
  ∧ r.2 = delete (gid guild, member_id usr) s
  ∧ remove_cmd ctx None s = (UsageRemove, s).
Proof.
  intros Hg. cbv zeta. unfold remove_cmd. rewrite Hg, remove_user_table. cbn [fst snd].
  case_bool_decide; case_decide; done.
Qed.

Lemma remove_cmd_reply_witness :
  let s : Table := {[ (7, 42) := ("Bob", 3) ]} in
  let bob := mkMember 42 "bob" "Bobby" [] in
  let ctx := mkContext (Some (mkGuild 7 [bob])) (mkMember 1 "own" "Owner" [mkRole "Owner"]) true in
  (remove_cmd ctx (Some bob) s).1 = Removed "Bobby"
  ∧ (remove_cmd ctx (Some bob) (remove_cmd ctx (Some bob) s).2).1 = NotOnLeaderboard.
Proof.
  intros s bob ctx.
  destruct (remove_cmd_reply ctx (mkGuild 7 [bob]) bob s) as (H1 & H2 & _); [reflexivity|].
  destruct (remove_cmd_reply ctx (mkGuild 7 [bob]) bob (remove_cmd ctx (Some bob) s).2)
    as (H3 & _); [reflexivity|].
  split.
  - rewrite H1. reflexivity.
  - rewrite H3, H2. reflexivity.
Defined.

(** X14.  In a server, [set_cmd] with a target and an amount that is not
    negative and fits the INTEGER column stores exactly that amount for the
    target (the clamp of the helper never changes it) and answers with the
    target's display name and the amount.  An amount beyond the column passes
    the check on negative amounts, the helper raises, no reply is sent and
    the table is as it was.  Without a target or without an amount the
    command answers with the usage line and writes nothing. *)
Theorem set_cmd_reply (bits : nat) (ctx : Context) (guild : Guild) (usr : Member)
    (user : option Member) (amount : option Z) (amt : Z) (s : Table) :
  ctx_guild ctx = Some guild →
  (0 ≤ amt →
   set_cmd bits ctx (Some usr) (Some amt) s
   = if bool_decide (amt ≤ int_max bits)
     then (SetTo (member_display_name usr) amt,
           <[(gid guild, member_id usr)
             := (name_after (gid guild) (member_id usr) (member_display_name usr) s, amt)]> s)
     else (CommandRaised, s))
  ∧ set_cmd bits ctx None amount s = (UsageSet, s)
  ∧ set_cmd bits ctx user None s = (UsageSet, s).
Proof.
  intros Hg. unfold set_cmd. rewrite Hg. split; [|split].
  - intros Hamt. rewrite decide_False by lia. rewrite set_count_table. cbn [name_for].
    rewrite Z.max_r by done. by case_bool_decide.
  - done.
  - by destruct user.
Qed.

Lemma set_cmd_reply_witness :
  let s : Table := {[ (7, 42) := ("Bob", 3) ]} in
  let bob := mkMember 42 "bob" "Bobby" [] in
  let ctx := mkContext (Some (mkGuild 7 [bob])) (mkMember 1 "own" "Owner" [mkRole "Owner"]) true in
  set_cmd 63 ctx (Some bob) (Some 10) s = (SetTo "Bobby" 10, <[(7, 42) := ("Bobby", 10)]> s)
  ∧ set_cmd 63 ctx (Some bob) (Some 9223372036854775808) s = (CommandRaised, s).
Proof.
  intros s bob ctx.
  destruct (set_cmd_reply 63 ctx (mkGuild 7 [bob]) bob None None 10 s) as (H1 & _);
    [reflexivity|].
  destruct (set_cmd_reply 63 ctx (mkGuild 7 [bob]) bob None None 9223372036854775808 s)
    as (H2 & _); [reflexivity|].
  split.
  - rewrite H1 by lia. reflexivity.
  - rewrite H2 by lia. reflexivity.
Defined.

(** X15.  In a server, [leaderboard_cmd] writes nothing; it answers that
    there is no data exactly when the guild has no row, and otherwise with an
    embed of as many lines as the guild has rows, up to 10. *)
Theorem leaderboard_cmd_reply (ctx : Context) (guild : Guild) (s : Table) :
  ctx_guild ctx = Some guild →
  let lines := leaderboard_lines guild (_top_n (gid guild) 10 s).1 in
  leaderboard_cmd ctx s
  = (if decide (guild_size (gid guild) s = 0%nat) then NoDataYet else LeaderboardEmbed lines, s)
  ∧ length lines = (10 `min` guild_size (gid guild) s)%nat.
Proof.
  intros Hg. cbv zeta. unfold leaderboard_cmd, leaderboard_lines. rewrite Hg, length_imap.
  pose proof (top_n_length (gid guild) 10 s) as Hlen.
  split; [|done]. destruct (_top_n (gid guild) 10 s).1 as [|r rows] eqn:E;
    rewrite ?E in Hlen; cbn [length] in Hlen.
  - rewrite decide_True by lia. done.
  - rewrite decide_False by lia. done.
Qed.

Lemma leaderboard_cmd_reply_witness :
  let s : Table := {[ (8, 42) := ("Bob", 3) ]} in
  let ctx := mkContext (Some (mkGuild 7 [])) (mkMember 1 "ann" "Ann" []) true in
  leaderboard_cmd ctx s = (NoDataYet, s).
Proof.
  intros s ctx.
  destruct (leaderboard_cmd_reply ctx (mkGuild 7 []) s) as [H1 _]; [reflexivity|].
  rewrite H1. reflexivity.
Defined.



(** X17.  When every member of the guild has a non-empty display name, no
    line of the leaderboard has an empty name: a row whose user has left is
    shown under its stored name, or as Unknown when that is empty. *)
Theorem leaderboard_names_not_blank (guild : Guild) (rows : list Order) :
  Forall (λ m, truthy (member_display_name m) = true) (guild_members guild) →
  Forall (λ l : Medal * string * Z, truthy l.1.2 = true) (leaderboard_lines guild rows).
Proof.
  intros Hm. apply Forall_lookup. intros i l Hl.
  unfold leaderboard_lines in Hl. rewrite list_lookup_imap in Hl.
  destruct (rows !! i) as [r|]; [|done]. injection Hl as <-. simpl.
  unfold name_for, get_member.
  destruct (find _ (guild_members guild)) as [m|] eqn:E.
  - apply find_some in E as [Hin _]. rewrite Forall_forall in Hm.
    apply Hm. by apply list_elem_of_In.
  - by destruct (display_name r).
Qed.

Lemma leaderboard_names_not_blank_witness :
  let guild := mkGuild 7 [mkMember 1 "ann" "Ann" []] in
  Forall (λ l : Medal * string * Z, truthy l.1.2 = true)
    (leaderboard_lines guild [mkOrder 7 1 "Annie" 4; mkOrder 7 2 EmptyString 3]).
Proof.
  intros guild. apply leaderboard_names_not_blank.
  repeat constructor.
Defined.

(** X18.  After [resetall_cmd] in a server whose guild has rows, the reply of
    [leaderboard_cmd] is still an embed, of as many lines as the guild has
    rows up to 10, every one with count 0; [resetall_cmd] itself answers with
    the number of rows of the guild. *)
Theorem leaderboard_after_resetall (ctx : Context) (guild : Guild) (s : Table) :
  ctx_guild ctx = Some guild →
  guild_size (gid guild) s ≠ 0%nat →
  let r := resetall_cmd ctx s in
  r.1 = ResetDone (Z.of_nat (guild_size (gid guild) s))
  ∧ ∃ lines,
      (leaderboard_cmd ctx r.2).1 = LeaderboardEmbed lines
      ∧ length lines = (10 `min` guild_size (gid guild) s)%nat
      ∧ Forall (λ l : Medal * string * Z, l.2 = 0) lines.
Proof.
  intros Hg Hsz. cbv zeta. unfold resetall_cmd. rewrite Hg. cbn [fst snd].
  split; [by rewrite reset_all_count|].
  pose proof (top_n_length (gid guild) 10 (_reset_all (gid guild) s).2) as Hlen.
  rewrite (guild_size_dom _ _ s) in Hlen by apply dom_reset_all.
  pose proof (top_n_reset_zero (gid guild) 10 s) as Hz.
  exists (leaderboard_lines guild (_top_n (gid guild) 10 (_reset_all (gid guild) s).2).1).
  split.
  { unfold leaderboard_cmd. rewrite Hg.
    destruct (_top_n (gid guild) 10 (_reset_all (gid guild) s).2).1; [|done].
    cbn [length] in Hlen. lia. }
  split; [unfold leaderboard_lines; by rewrite length_imap|].
  apply Forall_lookup. intros i l Hl.
  unfold leaderboard_lines in Hl. rewrite list_lookup_imap in Hl.
  destruct (_ !! i) as [row|] eqn:E; [|done]. injection Hl as <-. simpl.
  by apply (proj1 (Forall_lookup _ _) Hz i row).
Qed.

Lemma leaderboard_after_resetall_witness :
  let s : Table := {[ (7, 1) := ("Ann", 4); (7, 2) := ("Ben", 9) ]} in
  let ctx := mkContext (Some (mkGuild 7 [])) (mkMember 1 "ann" "Ann" []) true in
  (resetall_cmd ctx s).1 = ResetDone 2.
Proof.
  intros s ctx.
  destruct (leaderboard_after_resetall ctx (mkGuild 7 []) s) as [H1 _];
    [reflexivity|vm_compute; discriminate|].
  rewrite H1. reflexivity.
Defined.

(** What a command can do to the table: nothing, or one write scoped to the
    guild of the message. *)
Lemma invoke_effect (bits : nat) (lower : string → string) (name : string) (args : list Arg)
    (ctx : Context) (s : Table) (r : Reply * Table) :
  invoke bits lower name args ctx s = Some r →
  r.2 = s ∨ ∃ guild op, ctx_guild ctx = Some guild ∧ op_guild op = gid guild
                         ∧ r.2 = apply_op bits s op.
Proof.
  intros Hr.
  assert (∀ chk cb,
            (∀ t, (cb t).2 = t ∨ ∃ guild op, ctx_guild ctx = Some guild
                                   ∧ op_guild op = gid guild ∧ (cb t).2 = apply_op bits t op) →
            (guarded chk ctx cb s).2 = s
            ∨ ∃ guild op, ctx_guild ctx = Some guild ∧ op_guild op = gid guild
                          ∧ (guarded chk ctx cb s).2 = apply_op bits s op) as Hguard.
  { intros chk cb Hcb. unfold guarded. destruct (chk ctx); [apply Hcb|by left]. }
  assert (is_Some (invoke bits lower name args ctx s)) as Hsome by eauto.
  destruct (invoke_names bits lower name args ctx s Hsome) as [->|[Hn|Hn]].
  - rewrite invoke_add in Hr. injection Hr as <-. apply Hguard. intros t.
    destruct (ctx_guild ctx) as [guild|] eqn:Hg; [|left; unfold add_cmd; by rewrite Hg].
    right. exists guild, (OpAdd (gid guild) (member_id (ctx_author ctx)) 1
                            (member_display_name (ctx_author ctx))).
    split; [done|]. split; [done|]. by apply add_cmd_in_guild.
  - rewrite invoke_leaderboard in Hr by done. injection Hr as <-. left.
    unfold leaderboard_cmd. destruct (ctx_guild ctx) as [guild|]; [|done].
    by destruct (_top_n (gid guild) 10 s).1.
  - destruct (invoke_staff bits lower name args ctx s Hn) as (cb & Hcb & Hin).
    rewrite Hcb in Hr. injection Hr as <-. apply Hguard. intros t.
    repeat (apply elem_of_cons in Hin as [->|Hin]).
    + unfold remove_cmd. destruct (ctx_guild ctx) as [guild|]; [|by left].
      destruct (bind_member args).1 as [usr|]; [|by left].
      right. exists guild, (OpRemove (gid guild) (member_id usr)). split; [done|]. split; [done|].
      by destruct (_remove_user (gid guild) (member_id usr) t).1.
    + unfold set_cmd. destruct (ctx_guild ctx) as [guild|]; [|by left].
      destruct (bind_member args).1 as [usr|]; [|by left].
      destruct (bind_int (bind_member args).2).1 as [amt|]; [|by left].
      case_decide; [by left|].
      right. exists guild, (OpSet (gid guild) (member_id usr) amt (member_display_name usr)).
      split; [done|]. split; [done|]. cbn [name_for apply_op].
      by destruct (_set_count bits (gid guild) (member_id usr) amt (member_display_name usr) t).
    + unfold resetall_cmd. destruct (ctx_guild ctx) as [guild|]; [|by left].
      right. by exists guild, (OpResetAll (gid guild)).
    + by apply elem_of_nil in Hin.
Qed.

Lemma apply_op_other_guild (bits : nat) (op : StoreOp) (s : Table) (g' u' : Z) :
  g' ≠ op_guild op → apply_op bits s op !! (g', u') = s !! (g', u').
Proof.
  intros Hne. destruct op as [g u delta nm|g u value nm|g u|g]; unfold apply_op; simpl in Hne.
  - destruct (table_after_add bits g u delta nm s) as [->| ->]; [done|].
    apply lookup_insert_ne. congruence.
  - destruct (table_after_set bits g u value nm s) as [->| ->]; [done|].
    apply lookup_insert_ne. congruence.
  - rewrite remove_user_table. cbn [snd]. apply lookup_delete_ne. congruence.
  - rewrite reset_all_lookup. simpl.
    destruct (s !! (g', u')) as [[nm c]|]; simpl; [|done]. by rewrite decide_False.
Qed.

(** X19.  No history of messages, whatever the commands, arguments, authors
    and servers, brings a stored count below 0. *)
Theorem commands_keep_counts_nonneg (bits : nat) (lower : string → string) (invs : list Invocation)
    (s : Table) :
  nonneg s → nonneg (run_invocations bits lower invs s).
Proof.
  unfold run_invocations. revert s.
  induction invs as [|i invs IH]; intros s Hs; [done|].
  cbn [foldl]. apply IH. unfold after_invocation.
  destruct (invoke bits lower (inv_name i) (inv_args i) (inv_ctx i) s) as [r|] eqn:E; [|done].
  destruct (invoke_effect _ _ _ _ _ _ _ E) as [->|(guild & op & _ & _ & ->)]; [done|].
  by apply apply_op_nonneg.
Qed.

Lemma commands_keep_counts_nonneg_witness :
  let chef := mkMember 42 "alice" "Alice" [mkRole "Chef"; mkRole "Owner"] in
  let ctx := mkContext (Some (mkGuild 7 [chef])) chef true in
  nonneg (run_invocations 63 ascii_lower
            [mkInvocation "add" [] ctx;
             mkInvocation "set" [ArgMember chef; ArgInt (-4)] ctx;
             mkInvocation "set" [ArgMember chef; ArgInt 9223372036854775808] ctx;
             mkInvocation "resetall" [] ctx;
             mkInvocation "remove" [ArgMember chef] ctx] ∅).
Proof.
  intros chef ctx. apply commands_keep_counts_nonneg. apply map_Forall_empty.
Defined.

(** X20.  A message sent in one server never changes a row of another server,
    whatever the command, its arguments and the roles of the author; a
    message sent outside a server changes no row at all. *)
Theorem commands_stay_in_their_guild (bits : nat) (lower : string → string) (name : string)
    (args : list Arg) (ctx : Context) (s : Table) (r : Reply * Table) (g' u' : Z) :
  invoke bits lower name args ctx s = Some r →
  (∀ guild, ctx_guild ctx = Some guild → gid guild ≠ g') →
  r.2 !! (g', u') = s !! (g', u').
Proof.
  intros Hr Hother.
  destruct (invoke_effect _ _ _ _ _ _ _ Hr) as [->|(guild & op & Hg & Hop & ->)]; [done|].
  apply apply_op_other_guild. rewrite Hop. intros ->. by apply (Hother guild).
Qed.

Lemma commands_stay_in_their_guild_witness :
  let s : Table := {[ (7, 42) := ("Bob", 3); (8, 42) := ("Bob", 9) ]} in
  let owner := mkMember 1 "own" "Owner" [mkRole "owner"] in
  let ctx := mkContext (Some (mkGuild 7 [owner])) owner true in
  (resetall_cmd ctx s).2 !! (8, 42) = s !! (8, 42).
Proof.
  intros s owner ctx.
  apply (commands_stay_in_their_guild 63 ascii_lower "resetall" [] ctx s (resetall_cmd ctx s) 8 42).
  - reflexivity.
  - intros guild [= <-]. simpl. lia.
Defined.

(** X21.  The role check does not depend on the case of a required name: two
    names that lower-case to the same string are interchangeable.  It is
    monotone: a member who passes still passes with more roles held and with
    more names accepted. *)
Theorem role_check_case_and_growth (lower : string → string) (m m' : Member)
    (names names' : list string) (a b : string) :
  (lower a = lower b →
   _member_has_any_roles lower m (a :: names) = _member_has_any_roles lower m (b :: names))
  ∧ (member_roles m ⊆ member_roles m' → names ⊆ names' →
     _member_has_any_roles lower m names = true →
     _member_has_any_roles lower m' names' = true).
Proof.
  split.
  - intros Hab. apply eq_true_iff_eq. rewrite !member_has_any_roles_iff.
    split; intros (r & nm & Hr & Hnm & Heq); apply elem_of_cons in Hnm as [->|Hnm].
    + exists r, b. split; [done|]. split; [apply list_elem_of_here|congruence].
    + exists r, nm. split; [done|]. split; [by apply list_elem_of_further|done].
    + exists r, a. split; [done|]. split; [apply list_elem_of_here|congruence].
    + exists r, nm. split; [done|]. split; [by apply list_elem_of_further|done].
  - intros Hroles Hnames. rewrite !member_has_any_roles_iff.
    intros (r & nm & Hr & Hnm & Heq). exists r, nm. auto.
Qed.

Lemma role_check_case_and_growth_witness :
  let m := mkMember 1 "own" "Owner" [mkRole "OWNER"] in
  _member_has_any_roles ascii_lower m ["owner"; "Head Chef"]
  = _member_has_any_roles ascii_lower m ["Owner"; "Head Chef"].
Proof.
  intros m.
  apply (role_check_case_and_growth ascii_lower m m ["Head Chef"] [] "owner" "Owner").
  reflexivity.
Defined.

(** ** Overlapping calls: what holds under every schedule *)

Lemma add_step_safe (bits : nat) (g u delta : Z) (nm : string) (ph : Phase) (s : Table) :
  reads_pair g u ph →
  reads_pair g u (add_step bits g u delta nm ph s).1
  ∧ (∀ k, k ≠ (g, u) → (add_step bits g u delta nm ph s).2 !! k = s !! k)
  ∧ (nonneg s → nonneg (add_step bits g u delta nm ph s).2).
Proof.
  intros Hph. destruct ph as [|[old|]|row| |]; cbn [add_step].
  - split; [|done]. cbn [fst reads_pair]. unfold select_one. by destruct (s !! (g, u)).
  - simpl in Hph. destruct (s !! (g, u)) as [v|] eqn:E; [|done].
    destruct (fits bits _) eqn:F; [|done]. cbn [fst snd reads_pair].
    split; [by rewrite refresh_name_key|].
    unfold update_row. rewrite Hph. split.
    + intros k Hk. by rewrite lookup_alter_ne.
    + intros Hs k w. rewrite lookup_alter, E. case_decide as Hk.
      * subst k. simpl. intros [= <-]. simpl.
        rewrite refresh_name_count. simpl.
        pose proof (Hs (g, u) v E) as Hv. simpl in Hv. case_decide; lia.
      * apply Hs.
  - destruct (s !! (g, u)) as [v|] eqn:E; [done|].
    unfold commit. destruct (fits bits _) eqn:F; [|done]. cbn [fst snd reads_pair].
    split; [by rewrite refresh_name_key|]. split.
    + intros k Hk. rewrite lookup_flush, refresh_name_key. simpl. by rewrite decide_False.
    + intros Hs. unfold flush. apply map_Forall_insert_2; [|done].
      rewrite refresh_name_count. simpl. lia.
  - by destruct (reload_count row s).
  - done.
  - done.
Qed.

Lemma run_schedule_safe (bits : nat) (g u delta : Z) (nm : string) (sched : list nat)
    (pool : list Phase) (s : Table) :
  Forall (reads_pair g u) pool →
  (∀ k, k ≠ (g, u) → (run_schedule bits g u delta nm sched (pool, s)).2 !! k = s !! k)
  ∧ (nonneg s → nonneg (run_schedule bits g u delta nm sched (pool, s)).2).
Proof.
  revert pool s. induction sched as [|i sched IH]; intros pool s Hpool; [done|].
  unfold run_schedule. cbn [foldl].
  fold (run_schedule bits g u delta nm sched).
  unfold sched_step. cbn [fst snd].
  destruct (pool !! i) as [ph|] eqn:E; [|by apply IH].
  assert (reads_pair g u ph) as Hph.
  { rewrite Forall_forall in Hpool. apply Hpool, list_elem_of_lookup. eauto. }
  destruct (add_step_safe bits g u delta nm ph s Hph) as (H1 & H2 & H3).
  destruct (IH (<[i:=(add_step bits g u delta nm ph s).1]> pool)
              (add_step bits g u delta nm ph s).2) as [I1 I2].
  { by apply Forall_insert. }
  split.
  - intros k Hk. rewrite I1, H2 by done. done.
  - intros Hs. by apply I2, H3.
Qed.

(** X22.  Under every schedule of the steps of [N] overlapping calls of
    [_add_count] on one pair, lost updates or not, commits that raise or
    not, the rows of all other pairs are left as they are and no stored count
    is below 0. *)
Theorem overlapping_adds_stay_safe (bits : nat) (g u delta : Z) (nm : string) (N : nat)
    (sched : list nat) (s : Table) (k : Z * Z) :
  let r := run_schedule bits g u delta nm sched (replicate N Started, s) in
  (k ≠ (g, u) → r.2 !! k = s !! k) ∧ (nonneg s → nonneg r.2).
Proof.
  cbv zeta.
  destruct (run_schedule_safe bits g u delta nm sched (replicate N Started) s) as [H1 H2].
  { apply Forall_replicate. by simpl. }
  split; [apply H1|apply H2].
Qed.

Lemma overlapping_adds_stay_safe_witness :
  let s : Table := {[ (7, 42) := ("Bob", 0); (7, 43) := ("Eve", 5) ]} in
  let r := run_schedule 63 7 42 1 "Bob" [0; 1; 1; 0; 2; 1; 0]%nat (replicate 2 Started, s) in
  r.2 !! (7, 43) = s !! (7, 43) ∧ nonneg r.2.
Proof.
  intros s r.
  destruct (overlapping_adds_stay_safe 63 7 42 1 "Bob" 2 [0; 1; 1; 0; 2; 1; 0]%nat s (7, 43))
    as [H1 H2].
  split.
  - apply H1. congruence.
  - apply H2. intros k v Hk.
    apply lookup_insert_Some in Hk as [[_ <-]|[_ Hk]]; [simpl; lia|].
    apply lookup_singleton_Some in Hk as [_ <-]. simpl. lia.
Defined.

(** ** The column is never overrun *)

Lemma apply_op_in_range (bits : nat) (op : StoreOp) (s : Table) :
  in_range bits s → in_range bits (apply_op bits s op).
Proof.
  intros Hs. pose proof (int_max_nonneg bits) as Hmax.
  destruct op as [g u delta nm|g u value nm|g u|g]; unfold apply_op.
  - rewrite add_count_table. case_bool_decide; [|done].
    cbn [table_after from_option snd]. by apply map_Forall_insert_2.
  - rewrite set_count_table. case_bool_decide; [|done].
    cbn [table_after from_option snd]. by apply map_Forall_insert_2.
  - rewrite remove_user_table. simpl. by apply map_Forall_delete.
  - intros k v. rewrite reset_all_lookup.
    destruct (s !! k) as [[nm c]|] eqn:E; simpl; [|done].
    intros [= <-]. simpl. case_decide; [lia|]. apply (Hs k (nm, c) E).
Qed.

(** X23.  No history of helper calls and no history of messages stores a
    count beyond the largest value of the INTEGER column: a write that would
    is refused at the commit and the table stays as it was. *)
Theorem counts_stay_in_column (bits : nat) (lower : string → string) (ops : list StoreOp)
    (invs : list Invocation) (s : Table) :
  in_range bits s →
  in_range bits (run_ops bits ops s) ∧ in_range bits (run_invocations bits lower invs s).
Proof.
  intros Hs. split.
  - unfold run_ops. revert s Hs. induction ops as [|op ops IH]; intros s Hs; [done|].
    cbn [foldl]. by apply IH, apply_op_in_range.
  - unfold run_invocations. revert s Hs.
    induction invs as [|i invs IH]; intros s Hs; [done|].
    cbn [foldl]. apply IH. unfold after_invocation.
    destruct (invoke bits lower (inv_name i) (inv_args i) (inv_ctx i) s) as [r|] eqn:E; [|done].
    destruct (invoke_effect _ _ _ _ _ _ _ E) as [->|(guild & op & _ & _ & ->)]; [done|].
    by apply apply_op_in_range.
Qed.

Lemma counts_stay_in_column_witness :
  let owner := mkMember 42 "alice" "Alice" [mkRole "Chef"; mkRole "Owner"] in
  let ctx := mkContext (Some (mkGuild 7 [owner])) owner true in
  in_range 31 (run_ops 31 [OpSet 7 42 2147483647 "Alice"; OpAdd 7 42 1 "Alice"] ∅)
  ∧ in_range 31 (run_invocations 31 ascii_lower
                   [mkInvocation "set" [ArgMember owner; ArgInt 2147483647] ctx;
                    mkInvocation "add" [] ctx;
                    mkInvocation "set" [ArgMember owner; ArgInt 2147483648] ctx] ∅).
Proof.
  intros owner ctx. apply counts_stay_in_column. apply map_Forall_empty.
Defined.
